(** * The persistent cache of [src/data/cache.py]

    A shallow embedding of the [Cache] class: its five in-memory
    dictionaries, the list objects they refer to, the directory tree under
    [./data] that mirrors them, and the merge performed by [_merge_data].

    Conventions of the embedding.
    - A Python [str] is the [string] of its UTF-8 bytes; comparing such
      strings byte by byte orders them as Python orders code points.
    - A record is a [dict] with string keys: a [gmap string value].  Field
      values are the hashable JSON scalars [None], [bool], [int] and [str];
      floating-point numbers are left out.
    - A list of records is an object: the cache stores references to lists,
      and [_merge_data] may hand back the very list it was given.  The heap
      of list objects is part of the state.
    - A method is a computation in a state-and-exception monad over the
      heap, the [Cache] object and the disk.
    - The disk is what the cache reads and writes under [./data] on a
      POSIX file system: [./data], when it exists, is a directory; its
      entries are regular files and directories; a directory holds the
      five files the cache knows, each a regular file.  The process may
      list, create, read and write there: the failures of a file system
      that refuses ([EACCES], [ENOSPC], [ENAMETOOLONG], ...) are not
      described.
    - A ticker names its directory when it is one path component
      ([path_component]).  For any other string [Path("./data") / ticker]
      is [./data] itself, the directory of another ticker, a nested
      directory or a path outside [./data], which the disk does not
      describe: statements about the disk are made for path components,
      statements about memory for every string. *)

From Stdlib Require Import ZArith Ascii.
From stdpp Require Import base option list strings gmap sorting.

Local Open Scope string_scope.
Local Open Scope list_scope.

(** ** Values and records *)

Inductive value :=
  | VNone
  | VBool (b : bool)
  | VInt (z : Z)
  | VStr (s : string).

Global Instance value_eq_dec : EqDecision value.
Proof. solve_decision. Defined.

Definition value_to_sum (v : value) : unit + bool + Z + string :=
  match v with
  | VNone => inl (inl (inl ()))
  | VBool b => inl (inl (inr b))
  | VInt z => inl (inr z)
  | VStr s => inr s
  end.

Definition value_of_sum (x : unit + bool + Z + string) : value :=
  match x with
  | inl (inl (inl _)) => VNone
  | inl (inl (inr b)) => VBool b
  | inl (inr z) => VInt z
  | inr s => VStr s
  end.

Global Instance value_countable : Countable value.
Proof.
  apply (inj_countable' value_to_sum value_of_sum). by intros [].
Defined.

(** Python's [==] and [hash] identify [True] with [1] and [False] with [0];
    on the other scalars they are structural.  [py_key v] is the
    representative of [v] under [==], so a Python [set] of scalars is a
    [gset] of representatives. *)
Definition py_key (v : value) : value :=
  match v with
  | VBool b => VInt (Z.b2z b)
  | _ => v
  end.

Definition py_eq (v w : value) : Prop := py_key v = py_key w.

Abbreviation record := (gmap string value).

(** ** Exceptions and outcomes *)

Inductive exn :=
  | KeyError (key : string)
  | FileExistsError (path : string)
  | LoadError (path : string)  (* what [json.load] raises and [_load_file]
                                  does not catch: [UnicodeDecodeError],
                                  [ValueError], [RecursionError] *)
  | Dangling.  (* a reference that names no list object; never raised by
                  references obtained from the heap *)

Inductive outcome (A : Type) :=
  | Return (a : A)
  | Raise (e : exn).
Arguments Return {A} a.
Arguments Raise {A} e.

Global Instance outcome_ret : MRet outcome := λ A a, Return a.
Global Instance outcome_bind : MBind outcome := λ A B f o,
  match o with
  | Return a => f a
  | Raise e => Raise e
  end.

(** ** The disk under [./data] *)

(** A regular file, by what [json.load] does on it:
    - [Corrupt]: its text is not JSON, [json.load] raises
      [json.JSONDecodeError];
    - [Json doc]: it parses to [doc];
    - [Undecodable]: [json.load] raises another exception: the bytes are
      not text in the encoding ([UnicodeDecodeError]), a number is too long
      to convert ([ValueError]), the nesting is too deep
      ([RecursionError]). *)
Inductive file (A : Type) :=
  | Corrupt
  | Json (doc : A)
  | Undecodable.
Arguments Corrupt {A}.
Arguments Json {A} doc.
Arguments Undecodable {A}.

(** The four collections that are stored as one merged list per ticker. *)
Inductive collection := Prices | FinancialMetrics | InsiderTrades | CompanyNews.

Global Instance collection_eq_dec : EqDecision collection.
Proof. solve_decision. Defined.

(** A ticker directory, as far as the cache reads and writes it: the five
    file names it knows, each missing ([None]) or present.  The JSON in a
    file is taken to have the shape the cache's annotations give it. *)
Record ticker_dir := TickerDir {
  prices_json : option (file (list record));
  financial_metrics_json : option (file (list record));
  line_items_json : option (file (gmap string (list record)));
  insider_trades_json : option (file (list record));
  company_news_json : option (file (list record));
}.

Definition empty_dir : ticker_dir := TickerDir None None None None None.

Inductive node :=
  | RegularFile
  | Directory (d : ticker_dir).

(** ** The state: list objects, the [Cache] instance, the disk *)

Abbreviation loc := nat.

Record Cache := MkCache {
  _prices_cache : gmap string loc;
  _financial_metrics_cache : gmap string loc;
  _line_items_cache : gmap string (gmap string loc);
  _insider_trades_cache : gmap string loc;
  _company_news_cache : gmap string loc;
}.

(** [disk = None]: [./data] does not exist.  [disk = Some ch]: it is a
    directory whose entries are [ch]; a ticker is one path component. *)
Record state := MkState {
  heap : list (list record);
  self : Cache;
  disk : option (gmap string node);
}.

Definition set_heap (h : list (list record)) (s : state) : state :=
  MkState h (self s) (disk s).
Definition set_self (c : Cache) (s : state) : state :=
  MkState (heap s) c (disk s).
Definition set_disk (d : option (gmap string node)) (s : state) : state :=
  MkState (heap s) (self s) d.

Definition M (A : Type) : Type := state → outcome A * state.

Global Instance M_ret : MRet M := λ A a s, (Return a, s).
Global Instance M_bind : MBind M := λ A B f m s,
  match m s with
  | (Return a, s') => f a s'
  | (Raise e, s') => (Raise e, s')
  end.

Definition raise {A} (e : exn) : M A := λ s, (Raise e, s).
Definition gets {A} (f : state → A) : M A := λ s, (Return (f s), s).
Definition modify (f : state → state) : M unit := λ s, (Return (), f s).
Definition lift {A} (o : outcome A) : M A := λ s, (o, s).

(** ** List objects *)

(** [[...]] or [json.load]: a new list object, at the next free reference. *)
Definition new_list (l : list record) : M loc := λ s,
  (Return (length (heap s)), set_heap (heap s ++ [l]) s).

Definition deref (p : loc) : M (list record) := λ s,
  match heap s !! p with
  | Some l => (Return l, s)
  | None => (Raise Dangling, s)
  end.

(** [p.copy()]: a new list object with the same records. *)
Definition list_copy (p : loc) : M loc :=
  l ← deref p; new_list l.

(** [p.extend(xs)]: the object at [p] is updated in place. *)
Definition list_extend (p : loc) (xs : list record) : M unit :=
  l ← deref p; modify (λ s, set_heap (<[p := l ++ xs]> (heap s)) s).

(** [item[key]] *)
Definition getitem (item : record) (key : string) : outcome value :=
  match item !! key with
  | Some v => Return v
  | None => Raise (KeyError key)
  end.

(** [{item[key_field] for item in items}] *)
Definition key_set (key_field : string) (items : list record)
    : outcome (gset value) :=
  vs ← mapM (λ item, getitem item key_field) items;
  mret (list_to_set (py_key <$> vs)).

(** [[item for item in items if item[key_field] not in keys]] *)
Fixpoint not_in_keys (key_field : string) (keys : gset value)
    (items : list record) : outcome (list record) :=
  match items with
  | [] => mret []
  | item :: items' =>
      v ← getitem item key_field;
      rest ← not_in_keys key_field keys items';
      mret (if decide (py_key v ∈ keys) then rest else item :: rest)
  end.

(** ** [Cache._merge_data] *)

Definition _merge_data (existing : option loc) (new_data : loc)
    (key_field : string) : M loc :=
  match existing with
  | None => mret new_data
  | Some e =>
      items ← deref e;
      match items with
      | [] => mret new_data
      | _ :: _ =>
          existing_keys ← lift (key_set key_field items);
          merged ← list_copy e;
          new_items ← deref new_data;
          added ← lift (not_in_keys key_field existing_keys new_items);
          list_extend merged added;;
          mret merged
      end
  end.

(** ** Collections, their dictionaries and their files *)

Definition key_field (c : collection) : string :=
  match c with
  | Prices => "time"
  | FinancialMetrics => "report_period"
  | InsiderTrades => "filing_date"
  | CompanyNews => "date"
  end.

Definition cache_of (c : collection) (C : Cache) : gmap string loc :=
  match c with
  | Prices => _prices_cache C
  | FinancialMetrics => _financial_metrics_cache C
  | InsiderTrades => _insider_trades_cache C
  | CompanyNews => _company_news_cache C
  end.

Definition set_cache_of (c : collection) (m : gmap string loc) (C : Cache)
    : Cache :=
  match c with
  | Prices =>
      MkCache m (_financial_metrics_cache C) (_line_items_cache C)
        (_insider_trades_cache C) (_company_news_cache C)
  | FinancialMetrics =>
      MkCache (_prices_cache C) m (_line_items_cache C)
        (_insider_trades_cache C) (_company_news_cache C)
  | InsiderTrades =>
      MkCache (_prices_cache C) (_financial_metrics_cache C)
        (_line_items_cache C) m (_company_news_cache C)
  | CompanyNews =>
      MkCache (_prices_cache C) (_financial_metrics_cache C)
        (_line_items_cache C) (_insider_trades_cache C) m
  end.

Definition set_line_items_cache (m : gmap string (gmap string loc))
    (C : Cache) : Cache :=
  MkCache (_prices_cache C) (_financial_metrics_cache C) m
    (_insider_trades_cache C) (_company_news_cache C).

(** A file name inside a ticker directory, with the shape of its JSON. *)
Record file_name (A : Type) := FileName {
  read : ticker_dir → option (file A);
  write : file A → ticker_dir → ticker_dir;
}.
Arguments FileName {A} read write.
Arguments read {A} f d.
Arguments write {A} f x d.

(** ["prices.json"], ["financial_metrics.json"], ["insider_trades.json"],
    ["company_news.json"] *)
Definition list_json (c : collection) : file_name (list record) :=
  match c with
  | Prices =>
      FileName prices_json (λ x d,
        TickerDir (Some x) (financial_metrics_json d) (line_items_json d)
          (insider_trades_json d) (company_news_json d))
  | FinancialMetrics =>
      FileName financial_metrics_json (λ x d,
        TickerDir (prices_json d) (Some x) (line_items_json d)
          (insider_trades_json d) (company_news_json d))
  | InsiderTrades =>
      FileName insider_trades_json (λ x d,
        TickerDir (prices_json d) (financial_metrics_json d)
          (line_items_json d) (Some x) (company_news_json d))
  | CompanyNews =>
      FileName company_news_json (λ x d,
        TickerDir (prices_json d) (financial_metrics_json d)
          (line_items_json d) (insider_trades_json d) (Some x))
  end.

(** ["line_items.json"] *)
Definition line_items_file : file_name (gmap string (list record)) :=
  FileName line_items_json (λ x d,
    TickerDir (prices_json d) (financial_metrics_json d) (Some x)
      (insider_trades_json d) (company_news_json d)).

(** ** The partition manager and the persistence bridge *)

(** [ticker_dir.mkdir(parents=True, exist_ok=True)], for a ticker that is
    one path component: creates [./data] and the ticker's directory when
    missing, accepts an existing directory, and raises when the path is a
    regular file.  The disk is keyed by the ticker as it is given. *)
Definition _ensure_ticker_dir (ticker : string) : M string :=
  d ← gets disk;
  match default ∅ d !! ticker with
  | Some RegularFile => raise (FileExistsError ticker)
  | Some (Directory _) => mret ticker
  | None =>
      modify (set_disk (Some (<[ticker := Directory empty_dir]> (default ∅ d))));;
      mret ticker
  end.

(** [_save_file(ticker_dir / name, data)], where [dump] is the traversal of
    [data] by [json.dump].  [open] fails when the directory is missing: the
    [IOError] is caught and printed.  In a directory, [open] and the write
    are taken to succeed, as the file system of the conventions lets them:
    the file is replaced by the document. *)
Definition _save_file {A} (ticker_dir : string) (name : file_name A)
    (dump : M A) : M unit :=
  d ← gets disk;
  match d with
  | Some ch =>
      match ch !! ticker_dir with
      | Some (Directory td) =>
          doc ← dump;
          modify (set_disk
            (Some (<[ticker_dir := Directory (write name (Json doc) td)]> ch)))
      | _ => mret ()
      end
  | None => mret ()
  end.

(** [_load_file(ticker_dir / name, update_func)] *)
Definition _load_file {A} (ticker_dir : string) (name : file_name A)
    (update_func : A → M unit) : M unit :=
  d ← gets disk;
  match d ≫= (.!! ticker_dir) with
  | Some (Directory td) =>
      match read name td with
      | Some (Json data) => update_func data
      | Some Corrupt => mret ()    (* the decode error is caught, printed *)
      | Some Undecodable => raise (LoadError ticker_dir)   (* not caught *)
      | None => mret ()
      end
  | _ => mret ()
  end.

Fixpoint for_each {A} (l : list A) (body : A → M unit) : M unit :=
  match l with
  | [] => mret ()
  | x :: l' => body x;; for_each l' body
  end.

(** The objects [json.load] builds for a list file and for the line-items
    file. *)
Definition load_list (l : list record) : M loc := new_list l.

Definition load_dict (m : gmap string (list record)) : M (gmap string loc) :=
  kps ← mapM (λ kl, p ← new_list kl.2; mret (kl.1, p)) (map_to_list m);
  mret (list_to_map kps).

Definition update_list (c : collection) (ticker : string)
    (data : list record) : M unit :=
  p ← load_list data;
  modify (λ s, set_self
    (set_cache_of c (<[ticker := p]> (cache_of c (self s))) (self s)) s).

Definition update_line_items (ticker : string)
    (data : gmap string (list record)) : M unit :=
  m ← load_dict data;
  modify (λ s, set_self
    (set_line_items_cache (<[ticker := m]> (_line_items_cache (self s)))
       (self s)) s).

(** [iterdir] lists the entries of [./data] in an order that is not
    specified; [map_to_list] stands for it. *)
Definition _load_cache : M unit :=
  d ← gets disk;
  match d with
  | None => modify (set_disk (Some ∅))
  | Some ch =>
      for_each (map_to_list ch) (λ entry,
        match entry.2 with
        | RegularFile => mret ()
        | Directory _ =>
            let ticker := entry.1 in
            _load_file ticker (list_json Prices) (update_list Prices ticker);;
            _load_file ticker (list_json FinancialMetrics)
              (update_list FinancialMetrics ticker);;
            _load_file ticker line_items_file (update_line_items ticker);;
            _load_file ticker (list_json InsiderTrades)
              (update_list InsiderTrades ticker);;
            _load_file ticker (list_json CompanyNews)
              (update_list CompanyNews ticker)
        end)
  end.

(** [Cache.__init__]: five empty dictionaries, then the load from disk. *)
Definition __init__ : M unit :=
  modify (set_self (MkCache ∅ ∅ ∅ ∅ ∅));;
  _load_cache.

(** ** The composite key of a line-items query *)

(** [sorted(xs)] on strings.  The order is total and equal strings are
    indistinguishable, so every sorting algorithm returns the same list. *)
Definition sorted (xs : list string) : list string :=
  merge_sort String.le xs.

(** [sep.join(xs)] *)
Fixpoint join (sep : string) (xs : list string) : string :=
  match xs with
  | [] => ""
  | x :: xs' =>
      match xs' with
      | [] => x
      | _ :: _ => x +:+ sep +:+ join sep xs'
      end
  end.

(** [f"{end_date}_{period}_{','.join(sorted(line_items))}"] *)
Definition query_key (line_items : list string) (end_date period : string)
    : string :=
  end_date +:+ "_" +:+ period +:+ "_" +:+ join "," (sorted line_items).

(** ** The facade *)

(** [get_prices], [get_financial_metrics], [get_insider_trades] and
    [get_company_news] are [dict.get] on the collection's dictionary. *)
Definition get_list (c : collection) (ticker : string) : M (option loc) :=
  gets (λ s, cache_of c (self s) !! ticker).

Definition get_prices := get_list Prices.
Definition get_financial_metrics := get_list FinancialMetrics.
Definition get_insider_trades := get_list InsiderTrades.
Definition get_company_news := get_list CompanyNews.

(** [set_prices], [set_financial_metrics], [set_insider_trades] and
    [set_company_news] differ in the dictionary, the key field and the file
    name only. *)
Definition set_list (c : collection) (ticker : string) (data : loc)
    : M unit :=
  existing ← gets (λ s, cache_of c (self s) !! ticker);
  merged ← _merge_data existing data (key_field c);
  modify (λ s, set_self
    (set_cache_of c (<[ticker := merged]> (cache_of c (self s))) (self s)) s);;
  ticker_dir ← _ensure_ticker_dir ticker;
  _save_file ticker_dir (list_json c)
    (stored ← gets (λ s, cache_of c (self s) !! ticker);
     match stored with
     | Some p => deref p
     | None => raise (KeyError ticker)
     end).

Definition set_prices := set_list Prices.
Definition set_financial_metrics := set_list FinancialMetrics.
Definition set_insider_trades := set_list InsiderTrades.
Definition set_company_news := set_list CompanyNews.

(** [period] has the default ["ttm"] in the source; it is explicit here. *)
Definition get_line_items (ticker : string) (line_items : list string)
    (end_date period : string) : M (option loc) :=
  ticker_data ← gets (λ s,
    default (∅ : gmap string loc) (_line_items_cache (self s) !! ticker));
  if decide (ticker_data = ∅) then mret None
  else mret (ticker_data !! query_key line_items end_date period).

(** [json.dump] of the dictionary of one ticker: every list it refers to. *)
Definition dump_dict (m : gmap string loc) : M (gmap string (list record)) :=
  λ s,
    if decide (map_Forall (λ _ p, is_Some (heap s !! p)) m)
    then (Return (omap (λ p, heap s !! p) m), s)
    else (Raise Dangling, s).

Definition set_line_items (ticker : string) (line_items : list string)
    (end_date period : string) (data : loc) : M unit :=
  let query_key := query_key line_items end_date period in
  known ← gets (λ s, _line_items_cache (self s) !! ticker);
  (if known is None
   then modify (λ s, set_self
     (set_line_items_cache (<[ticker := ∅]> (_line_items_cache (self s)))
        (self s)) s)
   else mret ());;
  modify (λ s, set_self
    (set_line_items_cache
       (alter (<[query_key := data]>) ticker (_line_items_cache (self s)))
       (self s)) s);;
  ticker_dir ← _ensure_ticker_dir ticker;
  _save_file ticker_dir line_items_file
    (stored ← gets (λ s, _line_items_cache (self s) !! ticker);
     match stored with
     | Some m => dump_dict m
     | None => raise (KeyError ticker)
     end).

(** ** Callers *)

(** A call on the cache.  A [set_*] call passes a list the caller has just
    built, as the API client does with the records it fetched. *)
Inductive call :=
  | GetList (c : collection) (ticker : string)
  | SetList (c : collection) (ticker : string) (data : list record)
  | GetLineItems (ticker : string) (line_items : list string)
      (end_date period : string)
  | SetLineItems (ticker : string) (line_items : list string)
      (end_date period : string) (data : list record).

(** The state a call leaves behind, whether it returns or raises. *)
Definition exec (c : call) (s : state) : state :=
  match c with
  | GetList c ticker => (get_list c ticker s).2
  | SetList c ticker data =>
      ((p ← new_list data; set_list c ticker p) s).2
  | GetLineItems ticker line_items end_date period =>
      (get_line_items ticker line_items end_date period s).2
  | SetLineItems ticker line_items end_date period data =>
      ((p ← new_list data;
        set_line_items ticker line_items end_date period p) s).2
  end.

Definition run (calls : list call) (s : state) : state :=
  foldl (λ s c, exec c s) s calls.

(** A process that has just started, with [d] on disk and no objects yet,
    and the cache it constructs. *)
Definition process (d : option (gmap string node)) : state :=
  MkState [] (MkCache ∅ ∅ ∅ ∅ ∅) d.

Definition fresh_cache (d : option (gmap string node)) : state :=
  (__init__ (process d)).2.

(** The list stored for a ticker in a collection, by value. *)
Definition stored (c : collection) (ticker : string) (s : state)
    : option (list record) :=
  cache_of c (self s) !! ticker ≫= λ p, heap s !! p.

(** The identity value of a record, up to Python's [==]. *)
Definition ident (key_field : string) (item : record) : option value :=
  py_key <$> item !! key_field.

(** ** Vocabulary of the statements *)

(** The record carries the field. *)
Definition has_field (k : string) (item : record) : Prop :=
  is_Some (item !! k).

Global Instance has_field_dec k item : Decision (has_field k item).
Proof. unfold has_field. apply _. Defined.

(** The identity values of a list of records, in order. *)
Definition idents (k : string) (items : list record) : list value :=
  omap (ident k) items.

(** The identity values present in a list of records. *)
Definition keys_of (k : string) (items : list record) : gset value :=
  list_to_set (idents k items).

(** The identity value of the record is not among [keys]. *)
Definition admitted (k : string) (keys : gset value) (item : record) : Prop :=
  match ident k item with
  | Some v => v ∉ keys
  | None => True
  end.

Global Instance admitted_dec k keys item : Decision (admitted k keys item).
Proof. unfold admitted. destruct (ident k item); apply _. Defined.

(** A file of a ticker on a disk, when the ticker has a directory there. *)
Definition file_at {A} (name : file_name A) (ticker : string)
    (d : option (gmap string node)) : option (file A) :=
  match default ∅ d !! ticker with
  | Some (Directory td) => read name td
  | _ => None
  end.

(** The ticker has a directory on the disk. *)
Definition is_dir (ticker : string) (d : option (gmap string node)) : Prop :=
  ∃ td, default ∅ d !! ticker = Some (Directory td).

(** A computation that keeps a property of the state, however it ends. *)
Definition preserves {A} (I : state → Prop) (m : M A) : Prop :=
  ∀ s, I s → I (m s).2.

(** The records behind an optional reference: none when it is absent. *)
Definition contents (s : state) (existing : option loc)
    : option (list record) :=
  match existing with
  | None => Some []
  | Some e => heap s !! e
  end.

(** ** Sample data *)

Definition bar (time : string) (close : Z) : record :=
  {[ "time" := VStr time; "close" := VInt close ]}.

Definition jan1 : record := bar "2024-01-01" 100.
Definition jan2 : record := bar "2024-01-02" 101.
Definition jan2' : record := bar "2024-01-02" 102.

(** The scenario of the specification: two overlapping price batches for
    one ticker, and a read of another ticker. *)
Definition sample_calls : list call :=
  [ SetList Prices "AAPL" [jan1];
    SetList Prices "AAPL" [jan1; jan2];
    GetList Prices "MSFT" ].

(** A record without the identity field of prices. *)
Definition no_time : record := {[ "close" := VInt 5 ]}.

(** A heap with a stored list, two batches, an empty list and a malformed
    batch. *)
Definition sample_heap : list (list record) :=
  [ [jan1]; [jan1; jan2; jan2']; [jan2]; []; [jan2; no_time] ].

Definition sample_state : state :=
  MkState sample_heap (MkCache {[ "AAPL" := 0 ]} ∅ ∅ ∅ ∅) None.

(** The document a file of a ticker would load to, if it is there and
    parses. *)
Definition loadable {A} (name : file_name A) (ticker : string)
    (d : option (gmap string node)) : option A :=
  match file_at name ticker d with
  | Some (Json doc) => Some doc
  | _ => None
  end.

(** The call is a [set_*] of collection [c] on [ticker]. *)
Definition writes (c : collection) (ticker : string) (k : call) : Prop :=
  match k with
  | SetList c' ticker' _ => c' = c ∧ ticker' = ticker
  | _ => False
  end.

(** The call is a [set_line_items] on [ticker]. *)
Definition writes_line_items (ticker : string) (k : call) : Prop :=
  match k with
  | SetLineItems ticker' _ _ _ _ => ticker' = ticker
  | _ => False
  end.

(** The directory of a ticker as [mkdir] leaves it: the one that is there,
    or a new, empty one. *)
Definition dir_of (ticker : string) (d : option (gmap string node))
    : ticker_dir :=
  match default ∅ d !! ticker with
  | Some (Directory td) => td
  | _ => empty_dir
  end.

(** The disk after [name] in the directory of [ticker] was written. *)
Definition written {A} (name : file_name A) (ticker : string) (doc : A)
    (d : option (gmap string node)) : option (gmap string node) :=
  Some (<[ticker := Directory (write name (Json doc) (dir_of ticker d))]>
          (default ∅ d)).

(** The line-items dictionary of a ticker; empty when it has none. *)
Definition line_items_of (ticker : string) (s : state) : gmap string loc :=
  default ∅ (_line_items_cache (self s) !! ticker).

(** The character occurs in the string. *)
Fixpoint occurs (c : ascii) (s : string) : bool :=
  match s with
  | "" => false
  | String a s' => if decide (a = c) then true else occurs c s'
  end.

(** An end date or a period without the underscore that separates the
    parts of a composite key. *)
Definition unseparated (s : string) : Prop := occurs "_"%char s = false.

(** A field name that can be told apart in a comma-joined list: not empty,
    and without a comma. *)
Definition field_name (f : string) : Prop :=
  f ≠ "" ∧ occurs ","%char f = false.

(** The ticker is one path component, so that [Path("./data") / ticker] is
    the entry of [./data] with its name. *)
Definition path_component (ticker : string) : Prop :=
  ticker ≠ "" ∧ ticker ≠ "." ∧ ticker ≠ ".."
  ∧ occurs "/"%char ticker = false.

(** Every record carries the field, and no two of them have the same
    identity value. *)
Definition well_keyed (k : string) (items : list record) : Prop :=
  Forall (has_field k) items ∧ NoDup (idents k items).

(** Every list the four merged collections refer to is well keyed. *)
Definition distinct_ids (s : state) : Prop :=
  ∀ c ticker p, cache_of c (self s) !! ticker = Some p →
    ∃ l, heap s !! p = Some l ∧ well_keyed (key_field c) l.

(** The batch of a merging [set_*] call is well keyed. *)
Definition good_batch (k : call) : Prop :=
  match k with
  | SetList c _ data => well_keyed (key_field c) data
  | _ => True
  end.

(** The values a computation can return are among [Q]. *)
Definition returns {A} (m : M A) (Q : A → Prop) : Prop :=
  ∀ s a s', m s = (Return a, s') → Q a.

(** The body of the loop of [_load_cache], for one entry of [./data]. *)
Definition load_ticker_dir (entry : string * node) : M unit :=
  match entry.2 with
  | RegularFile => mret ()
  | Directory _ =>
      let ticker := entry.1 in
      _load_file ticker (list_json Prices) (update_list Prices ticker);;
      _load_file ticker (list_json FinancialMetrics)
        (update_list FinancialMetrics ticker);;
      _load_file ticker line_items_file (update_line_items ticker);;
      _load_file ticker (list_json InsiderTrades)
        (update_list InsiderTrades ticker);;
      _load_file ticker (list_json CompanyNews)
        (update_list CompanyNews ticker)
  end.



(** The references of a dictionary resolve, in a heap, to the lists of a
    document with the same keys. *)
Definition resolves (h : list (list record)) (m : gmap string loc)
    (doc : gmap string (list record)) : Prop :=
  ∀ k, match m !! k, doc !! k with
       | Some p, Some l => h !! p = Some l
       | None, None => True
       | _, _ => False
       end.

(** Every list entry of the cache refers to a list object that holds what
    the ticker's file for the collection holds on the disk [d]. *)
Definition lists_from (d : option (gmap string node)) (s : state) : Prop :=
  ∀ c t p, cache_of c (self s) !! t = Some p →
    ∃ l, heap s !! p = Some l ∧ loadable (list_json c) t d = Some l.

(** Every line-items entry of the cache resolves to what the ticker's
    line-items file holds on the disk [d]. *)
Definition line_items_from (d : option (gmap string node)) (s : state)
    : Prop :=
  ∀ t m, _line_items_cache (self s) !! t = Some m →
    ∃ doc, loadable line_items_file t d = Some doc ∧ resolves (heap s) m doc.

(** The state of a cache while it is loaded from the entries [ch] of
    [./data]: what it holds, it holds from the files. *)
Definition loaded_from (ch : gmap string node) (s : state) : Prop :=
  disk s = Some ch ∧ lists_from (Some ch) s ∧ line_items_from (Some ch) s.





(** The path of the ticker a call writes to is not a regular file. *)
Definition unobstructed (d : option (gmap string node)) (k : call) : Prop :=
  match k with
  | SetList _ t _ | SetLineItems t _ _ _ _ =>
      default ∅ d !! t ≠ Some RegularFile
  | _ => True
  end.

(** Every list file of the disk that loads is well keyed. *)
Definition well_keyed_disk (d : option (gmap string node)) : Prop :=
  ∀ c t l, loadable (list_json c) t d = Some l → well_keyed (key_field c) l.

(** A disk with one ticker directory that holds a price file. *)
Definition sample_disk : option (gmap string node) :=
  Some {[ "AAPL" :=
    Directory (TickerDir (Some (Json [jan1])) None None None None) ]}.

(** The sample state on a disk where the path of the ticker's directory is
    a regular file. *)
Definition blocked_state : state :=
  MkState sample_heap (MkCache {[ "AAPL" := 0 ]} ∅ ∅ ∅ ∅)
    (Some {[ "AAPL" := RegularFile ]}).

(** * Properties *)

(** ** The comprehensions of [_merge_data] *)

Lemma bind_eval {A B} (m : M A) (f : A → M B) s :
  (m ≫= f) s =
  match m s with
  | (Return a, s') => f a s'
  | (Raise e, s') => (Raise e, s')
  end.
Proof. reflexivity. Qed.

Lemma ident_has_field k item : has_field k item ↔ is_Some (ident k item).
Proof. unfold has_field, ident. by rewrite fmap_is_Some. Qed.

Lemma getitem_Return k item v : item !! k = Some v → getitem item k = Return v.
Proof. unfold getitem. by intros ->. Qed.

Lemma getitem_Raise k item : item !! k = None → getitem item k = Raise (KeyError k).
Proof. unfold getitem. by intros ->. Qed.

Lemma mapM_getitem k items :
  Forall (has_field k) items →
  ∃ vs, mapM (λ item, getitem item k) items = Return vs
        ∧ py_key <$> vs = idents k items.
Proof.
  induction 1 as [|item items [v Hv] _ (vs & Hvs & Hid)].
  - by exists [].
  - exists (v :: vs). cbn. rewrite (getitem_Return _ _ _ Hv). cbn.
    rewrite Hvs. cbn. split; [done|].
    unfold idents in *. cbn. unfold ident at 1. rewrite Hv. cbn.
    by rewrite Hid.
Qed.

Lemma key_set_Return k items :
  Forall (has_field k) items → key_set k items = Return (keys_of k items).
Proof.
  intros (vs & Hvs & Hid)%mapM_getitem. unfold key_set, keys_of.
  rewrite Hvs. cbn. by rewrite Hid.
Qed.

Lemma key_set_Raise k items :
  Exists (λ item, item !! k = None) items →
  key_set k items = Raise (KeyError k).
Proof.
  unfold key_set. induction 1 as [item items Hn|item items _ IH].
  - cbn. by rewrite (getitem_Raise _ _ Hn).
  - cbn. destruct (getitem item k) as [v|e] eqn:Hg; cbn.
    + destruct (mapM _ items); cbn in *; [done|]. by simplify_eq.
    + unfold getitem in Hg. destruct (item !! k); by simplify_eq.
Qed.

Lemma not_in_keys_Return k keys items :
  Forall (has_field k) items →
  not_in_keys k keys items = Return (filter (admitted k keys) items).
Proof.
  induction 1 as [|item items [v Hv] _ IH]; [done|].
  rewrite filter_cons. cbn [not_in_keys].
  rewrite (getitem_Return _ _ _ Hv). cbn. rewrite IH. cbn.
  assert (admitted k keys item ↔ py_key v ∉ keys) as Hadm.
  { unfold admitted, ident. by rewrite Hv. }
  destruct (decide (py_key v ∈ keys)), (decide (admitted k keys item));
    try done; exfalso; tauto.
Qed.

Lemma not_in_keys_Raise k keys items :
  Exists (λ item, item !! k = None) items →
  not_in_keys k keys items = Raise (KeyError k).
Proof.
  induction 1 as [item items Hn|item items _ IH].
  - cbn. by rewrite (getitem_Raise _ _ Hn).
  - cbn. destruct (getitem item k) as [v|e] eqn:Hg; cbn.
    + by rewrite IH.
    + unfold getitem in Hg. destruct (item !! k); by simplify_eq.
Qed.

(** ** [_merge_data] on the heap *)

Lemma deref_Some p l s : heap s !! p = Some l → deref p s = (Return l, s).
Proof. unfold deref. by intros ->. Qed.

Lemma heap_snoc_lookup (h : list (list record)) l :
  (h ++ [l]) !! length h = Some l.
Proof. by rewrite list_lookup_middle. Qed.

Lemma heap_snoc_insert (h : list (list record)) l l' :
  <[length h := l']> (h ++ [l]) = h ++ [l'].
Proof.
  replace (length h) with (length h + 0) by lia. by rewrite insert_app_r.
Qed.

Lemma no_field_Exists k (items : list record) :
  ¬ Forall (has_field k) items → Exists (λ item, item !! k = None) items.
Proof.
  intros H. apply (not_Forall_Exists _ items) in H.
  eapply Exists_impl; [exact H|]. intros item Hn. cbn in Hn.
  unfold has_field in Hn.
  destruct (item !! k); [|done]. destruct Hn. by eexists.
Qed.

Lemma merge_data_cold existing n k s :
  (existing = None ∨ ∃ e, existing = Some e ∧ heap s !! e = Some []) →
  _merge_data existing n k s = (Return n, s).
Proof.
  intros [->|(e & -> & He)]; [done|].
  unfold _merge_data. rewrite bind_eval, (deref_Some _ _ _ He). done.
Qed.

Lemma merge_data_warm e n k s E I :
  heap s !! e = Some E → E ≠ [] → heap s !! n = Some I →
  Forall (has_field k) E → Forall (has_field k) I →
  _merge_data (Some e) n k s =
    (Return (length (heap s)),
     set_heap (heap s ++ [E ++ filter (admitted k (keys_of k E)) I]) s).
Proof.
  intros He Hne Hn HE HI. unfold _merge_data.
  rewrite bind_eval, (deref_Some _ _ _ He). destruct E as [|r E']; [done|].
  rewrite bind_eval. unfold lift at 1. rewrite (key_set_Return _ _ HE).
  rewrite bind_eval. unfold list_copy. rewrite bind_eval, (deref_Some _ _ _ He).
  unfold new_list at 1. cbn [fst snd].
  rewrite bind_eval.
  assert (heap (set_heap (heap s ++ [r :: E']) s) !! n = Some I) as Hn'.
  { cbn. by apply lookup_app_l_Some. }
  rewrite (deref_Some _ _ _ Hn').
  rewrite bind_eval. unfold lift. rewrite (not_in_keys_Return _ _ _ HI).
  rewrite bind_eval. unfold list_extend. rewrite bind_eval.
  assert (heap (set_heap (heap s ++ [r :: E']) s) !! length (heap s)
          = Some (r :: E')) as Hm.
  { cbn. apply heap_snoc_lookup. }
  rewrite (deref_Some _ _ _ Hm). unfold modify, set_heap. cbn.
  by rewrite heap_snoc_insert.
Qed.

Lemma merge_data_raise e n k s E I :
  heap s !! e = Some E → E ≠ [] → heap s !! n = Some I →
  Exists (λ item, item !! k = None) (E ++ I) →
  ∃ s', _merge_data (Some e) n k s = (Raise (KeyError k), s')
        ∧ self s' = self s ∧ disk s' = disk s
        ∧ heap s `prefix_of` heap s'.
Proof.
  intros He Hne Hn Hbad. unfold _merge_data.
  rewrite bind_eval, (deref_Some _ _ _ He). destruct E as [|r E']; [done|].
  rewrite bind_eval. unfold lift at 1.
  destruct (decide (Forall (has_field k) (r :: E'))) as [HE|HE].
  - rewrite (key_set_Return _ _ HE).
    rewrite bind_eval. unfold list_copy.
    rewrite bind_eval, (deref_Some _ _ _ He).
    unfold new_list at 1. cbn [fst snd]. rewrite bind_eval.
    assert (heap (set_heap (heap s ++ [r :: E']) s) !! n = Some I) as Hn'.
    { cbn. by apply lookup_app_l_Some. }
    rewrite (deref_Some _ _ _ Hn'). rewrite bind_eval. unfold lift.
    rewrite not_in_keys_Raise.
    + eexists. split; [done|]. cbn. repeat split. by apply prefix_app_r.
    + apply Exists_app in Hbad as [Hbad|Hbad]; [|done].
      exfalso. apply Exists_exists in Hbad as (item & Hin & Hnone).
      rewrite Forall_forall in HE. destruct (HE item Hin) as [v Hv].
      congruence.
  - rewrite (key_set_Raise _ _ (no_field_Exists _ _ HE)).
    by exists s.
Qed.

Lemma filter_admitted_nil k keys (items : list record) :
  (∀ item, item ∈ items → ∃ v, ident k item = Some v ∧ v ∈ keys) →
  filter (admitted k keys) items = [].
Proof.
  induction items as [|item items IH]; intros Hin; [done|].
  rewrite filter_cons.
  destruct (Hin item) as (v & Hv & Hk); [by left|].
  rewrite decide_False.
  - apply IH. intros item' ?. apply Hin. by right.
  - unfold admitted. rewrite Hv. tauto.
Qed.

Lemma elem_of_keys_of k (items : list record) v :
  v ∈ keys_of k items ↔ ∃ item, item ∈ items ∧ ident k item = Some v.
Proof. unfold keys_of, idents. by rewrite elem_of_list_to_set, list_elem_of_omap. Qed.

Lemma merged_has_field k keys (E I : list record) :
  Forall (has_field k) E → Forall (has_field k) I →
  Forall (has_field k) (E ++ filter (admitted k keys) I).
Proof.
  intros HE HI. apply Forall_app. split; [done|].
  rewrite Forall_forall in HI |- *. intros item [_ ?]%list_elem_of_filter. auto.
Qed.

(** Re-merging a batch into the result of merging it admits nothing. *)
Lemma remerge_admits_nothing k (E I : list record) :
  Forall (has_field k) I →
  filter (admitted k
    (keys_of k (E ++ filter (admitted k (keys_of k E)) I))) I = [].
Proof.
  intros HI. apply filter_admitted_nil. intros item Hitem.
  rewrite Forall_forall in HI.
  destruct (proj1 (ident_has_field k item) (HI item Hitem)) as [v Hv].
  exists v. split; [done|]. apply elem_of_keys_of.
  destruct (decide (v ∈ keys_of k E)) as [Hin|Hout].
  - apply elem_of_keys_of in Hin as (item' & ? & ?).
    exists item'. split; [|done]. apply elem_of_app. by left.
  - exists item. split; [|done]. apply elem_of_app. right.
    apply list_elem_of_filter. split; [|done].
    unfold admitted. by rewrite Hv.
Qed.

Lemma self_merge_admits_nothing k (I : list record) :
  Forall (has_field k) I → filter (admitted k (keys_of k I)) I = [].
Proof.
  intros HI. apply filter_admitted_nil. intros item Hitem.
  rewrite Forall_forall in HI.
  destruct (proj1 (ident_has_field k item) (HI item Hitem)) as [v Hv].
  exists v. split; [done|]. apply elem_of_keys_of. eauto.
Qed.

(** C5. When [existing] is absent or refers to an empty list,
    [_merge_data] returns the reference [new_data] it was given and leaves
    the state as it was: the incoming list is neither filtered nor
    copied. *)
Theorem merge_cold_returns_incoming existing new_data k s :
  contents s existing = Some [] →
  _merge_data existing new_data k s = (Return new_data, s).
Proof.
  intros H. apply merge_data_cold. destruct existing as [e|]; eauto.
Qed.

Lemma merge_cold_returns_incoming_witness :
  contents sample_state (Some 3) = Some []
  ∧ _merge_data (Some 3) 1 "time" sample_state = (Return 1, sample_state)
  ∧ _merge_data None 1 "time" sample_state = (Return 1, sample_state).
Proof.
  split; [reflexivity|]. split.
  - apply (merge_cold_returns_incoming (Some 3) 1 "time" sample_state).
    reflexivity.
  - apply (merge_cold_returns_incoming None 1 "time" sample_state).
    reflexivity.
Defined.

(** C2. With a non-empty [existing], the merged list is [existing]
    followed by the incoming records whose identity value is absent from the
    identity values of [existing] as it was before the call.  Records of the
    batch are not compared with each other: for an identity value absent
    from [existing], every incoming record that has it is appended. *)
Theorem merge_compares_with_existing_only e new_data k s E I :
  heap s !! e = Some E → E ≠ [] → heap s !! new_data = Some I →
  Forall (has_field k) E → Forall (has_field k) I →
  ∃ m s',
    _merge_data (Some e) new_data k s = (Return m, s')
    ∧ heap s' !! m = Some (E ++ filter (admitted k (keys_of k E)) I)
    ∧ ∀ v, v ∉ keys_of k E →
        filter (λ item, ident k item = Some v)
          (filter (admitted k (keys_of k E)) I)
        = filter (λ item, ident k item = Some v) I.
Proof.
  intros He Hne Hn HE HI. eexists _, _. split; [by eapply merge_data_warm|].
  split; [apply heap_snoc_lookup|].
  intros v Hv. rewrite list_filter_filter. apply list_filter_iff.
  intros item. unfold admitted. split; [tauto|]. intros Hid. by rewrite Hid.
Qed.

Lemma merge_compares_with_existing_only_witness :
  ∃ m s',
    _merge_data (Some 0) 1 "time" sample_state = (Return m, s')
    ∧ heap s' !! m = Some [jan1; jan2; jan2'].
Proof.
  destruct (merge_compares_with_existing_only 0 1 "time" sample_state
              [jan1] [jan1; jan2; jan2']) as (m & s' & Hrun & Hm & _).
  - reflexivity.
  - discriminate.
  - reflexivity.
  - repeat constructor; by eexists.
  - repeat constructor; by eexists.
  - exists m, s'. split; [exact Hrun|]. rewrite Hm. f_equal.
Defined.

(** With no identity value to compare with, every record is admitted. *)
Lemma filter_admitted_empty k (I : list record) :
  filter (admitted k (keys_of k [])) I = I.
Proof.
  induction I as [|item I IH]; [done|].
  rewrite filter_cons_True; [by rewrite IH|].
  unfold admitted. destruct (ident k item); [|done].
  change (keys_of k []) with (∅ : gset value). set_solver.
Qed.

(** C4. The merged list is the records of [existing], in their order,
    followed by the admitted records of the batch, every one of them and
    in the order the batch has them: it is [E ++ A] where [A] is the batch
    with the records that are not admitted left out.  Nothing is re-sorted
    and nothing else is dropped. *)
Theorem merge_preserves_order existing new_data k s E I :
  contents s existing = Some E → heap s !! new_data = Some I →
  Forall (has_field k) E → Forall (has_field k) I →
  ∃ m s' A,
    _merge_data existing new_data k s = (Return m, s')
    ∧ heap s' !! m = Some (E ++ A)
    ∧ A = filter (admitted k (keys_of k E)) I
    ∧ A `sublist_of` I
    ∧ ∀ item, item ∈ A ↔ item ∈ I ∧ admitted k (keys_of k E) item.
Proof.
  intros He Hn HE HI.
  exists (if decide (E = []) then new_data else length (heap s)),
    (if decide (E = []) then s
     else set_heap
            (heap s ++ [E ++ filter (admitted k (keys_of k E)) I]) s),
    (filter (admitted k (keys_of k E)) I).
  split; [|split; [|split; [done|split; [apply sublist_filter|]]]].
  - case_decide as HEe.
    + apply merge_data_cold. subst E. destruct existing; eauto.
    + destruct existing as [e|]; [|by simplify_eq/=]. cbn in He.
      by eapply merge_data_warm.
  - case_decide as HEe; [|apply heap_snoc_lookup].
    subst E. by rewrite filter_admitted_empty.
  - intros item. rewrite list_elem_of_filter. tauto.
Qed.

Lemma merge_preserves_order_witness :
  ∃ m s',
    _merge_data (Some 0) 1 "time" sample_state = (Return m, s')
    ∧ heap s' !! m = Some ([jan1] ++ [jan2; jan2']).
Proof.
  destruct (merge_preserves_order (Some 0) 1 "time" sample_state
              [jan1] [jan1; jan2; jan2']) as (m & s' & A & Hrun & Hm & _).
  - reflexivity.
  - reflexivity.
  - repeat constructor; by eexists.
  - repeat constructor; by eexists.
  - exists m, s'. split; [exact Hrun|].
    vm_compute in Hrun. injection Hrun as <- <-. reflexivity.
Defined.

(** C3. Merging a batch and then merging the same batch into the result
    yields the same list of records as the first merge. *)
Theorem merge_idempotent existing new_data k s E I :
  contents s existing = Some E → heap s !! new_data = Some I →
  Forall (has_field k) E → Forall (has_field k) I →
  ∃ m1 s1 m2 s2 merged,
    _merge_data existing new_data k s = (Return m1, s1)
    ∧ heap s1 !! m1 = Some merged
    ∧ _merge_data (Some m1) new_data k s1 = (Return m2, s2)
    ∧ heap s2 !! m2 = Some merged.
Proof.
  intros He Hn HE HI. destruct (decide (E = [])) as [->|Hne].
  - (* the first merge hands back the batch itself *)
    assert (_merge_data existing new_data k s = (Return new_data, s)) as H1.
    { apply merge_data_cold. destruct existing; eauto. }
    destruct (decide (I = [])) as [->|HIne].
    + exists new_data, s, new_data, s, []. repeat split; try done.
      apply merge_data_cold. eauto.
    + eexists new_data, s, _, _, I. split; [done|]. split; [done|].
      split; [by eapply merge_data_warm|].
      rewrite self_merge_admits_nothing by done.
      rewrite app_nil_r. apply heap_snoc_lookup.
  - destruct existing as [e|]; [|by simplify_eq/=]. cbn in He.
    set (merged := E ++ filter (admitted k (keys_of k E)) I).
    set (s1 := set_heap (heap s ++ [merged]) s).
    assert (heap s1 !! length (heap s) = Some merged) as Hm1
      by apply heap_snoc_lookup.
    assert (heap s1 !! new_data = Some I) as Hn1
      by (cbn; by apply lookup_app_l_Some).
    eexists (length (heap s)), s1, _, _, merged.
    split; [by eapply merge_data_warm|]. split; [done|].
    split.
    + eapply merge_data_warm; try done.
      * subst merged. by destruct E.
      * by apply merged_has_field.
    + subst merged. rewrite remerge_admits_nothing by done.
      rewrite app_nil_r. apply heap_snoc_lookup.
Qed.

Lemma merge_idempotent_witness :
  ∃ m1 s1 m2 s2,
    _merge_data (Some 0) 1 "time" sample_state = (Return m1, s1)
    ∧ _merge_data (Some m1) 1 "time" s1 = (Return m2, s2)
    ∧ heap s1 !! m1 = Some [jan1; jan2; jan2']
    ∧ heap s2 !! m2 = Some [jan1; jan2; jan2'].
Proof.
  destruct (merge_idempotent (Some 0) 1 "time" sample_state
              [jan1] [jan1; jan2; jan2'])
    as (m1 & s1 & m2 & s2 & merged & H1 & Hm1 & H2 & Hm2).
  - reflexivity.
  - reflexivity.
  - repeat constructor; by eexists.
  - repeat constructor; by eexists.
  - exists m1, s1, m2, s2. split; [exact H1|]. split; [exact H2|].
    assert (merged = [jan1; jan2; jan2']) as <-; [|done].
    vm_compute in H1. injection H1 as <- <-.
    vm_compute in Hm1. by injection Hm1 as <-.
Defined.

(** ** Computations that keep a property of the state *)

Section preserves.
Context (I : state → Prop).

Lemma preserves_ret {A} (a : A) : preserves I (mret a).
Proof. by intros s. Qed.

Lemma preserves_raise {A} e : preserves I (raise (A:=A) e).
Proof. by intros s. Qed.

Lemma preserves_gets {A} (f : state → A) : preserves I (gets f).
Proof. by intros s. Qed.

Lemma preserves_lift {A} (o : outcome A) : preserves I (lift o).
Proof. by intros s. Qed.

Lemma preserves_deref p : preserves I (deref p).
Proof. intros s ?. unfold deref. by destruct (heap s !! p). Qed.

Lemma preserves_bind {A B} (m : M A) (f : A → M B) :
  preserves I m → (∀ a, preserves I (f a)) → preserves I (m ≫= f).
Proof.
  intros Hm Hf s Hs. rewrite bind_eval. specialize (Hm s Hs).
  destruct (m s) as [[a|e] s']; cbn in *; [by apply Hf|done].
Qed.

Lemma preserves_bind_returns {A B} (m : M A) (f : A → M B) Q :
  preserves I m → returns m Q → (∀ a, Q a → preserves I (f a)) →
  preserves I (m ≫= f).
Proof.
  intros Hm HQ Hf s Hs. rewrite bind_eval. specialize (Hm s Hs).
  destruct (m s) as [[a|e] s'] eqn:Hms; cbn in *; [|done].
  apply Hf; [|done]. by eapply HQ.
Qed.

Lemma preserves_modify f : (∀ s, I s → I (f s)) → preserves I (modify f).
Proof. intros Hf s ?. by apply Hf. Qed.

Lemma preserves_for_each {A} (l : list A) (body : A → M unit) :
  (∀ x, x ∈ l → preserves I (body x)) → preserves I (for_each l body).
Proof.
  induction l as [|x l IH]; intros Hbody; [apply preserves_ret|].
  cbn. apply preserves_bind; [apply Hbody; by left|].
  intros _. apply IH. intros y ?. apply Hbody. by right.
Qed.

Lemma preserves_mapM {A B} (f : A → M B) (l : list A) :
  (∀ x, preserves I (f x)) → preserves I (mapM f l).
Proof.
  intros Hf. induction l as [|x l IH]; [apply preserves_ret|].
  cbn. apply preserves_bind; [done|]. intros y.
  apply preserves_bind; [done|]. intros k. apply preserves_ret.
Qed.

(** Properties that do not look at the heap. *)
Section heap_blind.
Hypothesis blind : ∀ s h, I s → I (set_heap h s).

Lemma preserves_new_list l : preserves I (new_list l).
Proof. intros s ?. by apply blind. Qed.

Lemma preserves_list_copy p : preserves I (list_copy p).
Proof.
  apply preserves_bind; [apply preserves_deref|].
  intros l. apply preserves_new_list.
Qed.

Lemma preserves_list_extend p xs : preserves I (list_extend p xs).
Proof.
  apply preserves_bind; [apply preserves_deref|].
  intros l. apply preserves_modify. intros s ?. by apply blind.
Qed.

Lemma preserves_merge_data existing new_data k :
  preserves I (_merge_data existing new_data k).
Proof.
  unfold _merge_data. destruct existing as [e|]; [|apply preserves_ret].
  apply preserves_bind; [apply preserves_deref|].
  intros [|item items]; [apply preserves_ret|].
  apply preserves_bind; [apply preserves_lift|]. intros keys.
  apply preserves_bind; [apply preserves_list_copy|]. intros merged.
  apply preserves_bind; [apply preserves_deref|]. intros new_items.
  apply preserves_bind; [apply preserves_lift|]. intros added.
  apply preserves_bind; [apply preserves_list_extend|]. intros _.
  apply preserves_ret.
Qed.

Lemma preserves_dump_dict m : preserves I (dump_dict m).
Proof. intros s ?. unfold dump_dict. by case_decide. Qed.

Lemma preserves_load_dict m : preserves I (load_dict m).
Proof.
  apply preserves_bind; [|intros; apply preserves_ret].
  apply preserves_mapM. intros kl.
  apply preserves_bind; [apply preserves_new_list|].
  intros; apply preserves_ret.
Qed.
End heap_blind.

Lemma preserves_ensure_ticker_dir ticker :
  (∀ s, I s → default ∅ (disk s) !! ticker = None →
     I (set_disk
          (Some (<[ticker := Directory empty_dir]> (default ∅ (disk s)))) s)) →
  preserves I (_ensure_ticker_dir ticker).
Proof.
  intros Hmk s Hs. unfold _ensure_ticker_dir. rewrite bind_eval. cbn.
  destruct (default ∅ (disk s) !! ticker) as [[|td]|] eqn:Ht; cbn; auto.
  by apply Hmk.
Qed.

Lemma preserves_save_file {A} ticker (name : file_name A) dump :
  preserves I dump →
  (∀ s s' ch td doc, I s → disk s = Some ch → I s' →
     I (set_disk
          (Some (<[ticker := Directory (write name (Json doc) td)]> ch)) s')) →
  preserves I (_save_file ticker name dump).
Proof.
  intros Hdump Hwr s Hs. unfold _save_file. rewrite bind_eval. cbn.
  destruct (disk s) as [ch|] eqn:Hd; [|done].
  destruct (ch !! ticker) as [[|td]|]; try done.
  rewrite bind_eval. specialize (Hdump s Hs).
  destruct (dump s) as [[doc|e] s'] eqn:Hdm; cbn in *; [|done].
  by eapply Hwr.
Qed.

Lemma preserves_load_file_on {A} ticker (name : file_name A) update_func :
  (∀ data s, I s → loadable name ticker (disk s) = Some data →
     I (update_func data s).2) →
  preserves I (_load_file ticker name update_func).
Proof.
  intros Hup s Hs. unfold _load_file. rewrite bind_eval. cbn.
  specialize (λ data, Hup data s Hs). unfold loadable, file_at in Hup.
  destruct (disk s) as [ch|]; [|done]. cbn in *.
  destruct (ch !! ticker) as [[|td]|]; try done.
  destruct (read name td) as [[|data|]|]; try done. by apply Hup.
Qed.

Lemma preserves_load_file {A} ticker (name : file_name A) update_func :
  (∀ data, preserves I (update_func data)) →
  preserves I (_load_file ticker name update_func).
Proof.
  intros Hup s Hs. unfold _load_file. rewrite bind_eval. cbn.
  destruct (disk s ≫= _) as [[|td]|]; try done.
  destruct (read name td) as [[|data|]|]; try done. by apply Hup.
Qed.
End preserves.

(** ** The dictionaries of the [Cache] object *)

Lemma cache_of_set_eq c m C : cache_of c (set_cache_of c m C) = m.
Proof. by destruct c. Qed.

Lemma cache_of_set_ne c c' m C :
  c ≠ c' → cache_of c' (set_cache_of c m C) = cache_of c' C.
Proof. by destruct c, c'. Qed.

Lemma line_items_set_cache_of c m C :
  _line_items_cache (set_cache_of c m C) = _line_items_cache C.
Proof. by destruct c. Qed.

Lemma cache_of_set_line_items c m C :
  cache_of c (set_line_items_cache m C) = cache_of c C.
Proof. by destruct c. Qed.

Lemma ensure_ticker_dir_returns ticker :
  returns (_ensure_ticker_dir ticker) (λ td, td = ticker).
Proof.
  intros s a s'. unfold _ensure_ticker_dir. rewrite bind_eval. cbn.
  destruct (default ∅ (disk s) !! ticker) as [[|td]|];
    rewrite ?bind_eval; unfold raise, modify, mret, M_ret; cbn;
    intros; by simplify_eq.
Qed.

(** ** What the [set_*] methods keep *)

Section facade_preserves.
Context (I : state → Prop) (ticker : string).
Hypothesis heap_blind : ∀ s h, I s → I (set_heap h s).
Hypothesis dir_written : ∀ s s' td, I s → I s' →
  I (set_disk (Some (<[ticker := Directory td]> (default ∅ (disk s)))) s').

Lemma preserves_ensure : preserves I (_ensure_ticker_dir ticker).
Proof. apply preserves_ensure_ticker_dir. intros s Hs _. by apply dir_written. Qed.

Lemma preserves_save {A} (name : file_name A) dump :
  preserves I dump → preserves I (_save_file ticker name dump).
Proof.
  intros Hdump. apply preserves_save_file; [done|].
  intros s s' ch td doc Hs Hd Hs'.
  specialize (dir_written s s' (write name (Json doc) td) Hs Hs').
  by rewrite Hd in dir_written.
Qed.

Lemma preserves_set_list c data :
  (∀ s m, I s →
     I (set_self
          (set_cache_of c (<[ticker := m]> (cache_of c (self s))) (self s))
          s)) →
  preserves I (set_list c ticker data).
Proof.
  intros Hself. unfold set_list.
  apply preserves_bind; [apply preserves_gets|]. intros existing.
  apply preserves_bind; [by apply preserves_merge_data|]. intros merged.
  apply preserves_bind; [apply preserves_modify; auto|]. intros _.
  eapply preserves_bind_returns;
    [apply preserves_ensure|apply ensure_ticker_dir_returns|].
  intros td ->. apply preserves_save.
  apply preserves_bind; [apply preserves_gets|].
  intros [p|]; [apply preserves_deref|apply preserves_raise].
Qed.

Lemma preserves_set_line_items line_items end_date period data :
  (∀ s m, I s →
     I (set_self (set_line_items_cache m (self s)) s)) →
  preserves I (set_line_items ticker line_items end_date period data).
Proof.
  intros Hself. unfold set_line_items.
  apply preserves_bind; [apply preserves_gets|]. intros known.
  apply preserves_bind.
  { destruct known; [apply preserves_ret|apply preserves_modify; auto]. }
  intros _.
  apply preserves_bind; [apply preserves_modify; auto|]. intros _.
  eapply preserves_bind_returns;
    [apply preserves_ensure|apply ensure_ticker_dir_returns|].
  intros td ->. apply preserves_save.
  apply preserves_bind; [apply preserves_gets|].
  intros [m|]; [by apply preserves_dump_dict|apply preserves_raise].
Qed.
End facade_preserves.

(** ** Directories *)

Lemma bind_Return_inv {A B} (m : M A) (f : A → M B) s b s' :
  (m ≫= f) s = (Return b, s') →
  ∃ a s1, m s = (Return a, s1) ∧ f a s1 = (Return b, s').
Proof.
  rewrite bind_eval. destruct (m s) as [[a|e] s1]; [eauto|done].
Qed.

Lemma preserves_update_list I c ticker data :
  (∀ s h, I s → I (set_heap h s)) →
  (∀ s m, I s →
     I (set_self
          (set_cache_of c (<[ticker := m]> (cache_of c (self s))) (self s)) s)) →
  preserves I (update_list c ticker data).
Proof.
  intros Hheap Hself. apply preserves_bind; [by apply preserves_new_list|].
  intros p. apply preserves_modify. auto.
Qed.

Lemma preserves_update_line_items I ticker data :
  (∀ s h, I s → I (set_heap h s)) →
  (∀ s m, I s →
     I (set_self
          (set_line_items_cache (<[ticker := m]> (_line_items_cache (self s)))
             (self s)) s)) →
  preserves I (update_line_items ticker data).
Proof.
  intros Hheap Hself. apply preserves_bind; [by apply preserves_load_dict|].
  intros p. apply preserves_modify. auto.
Qed.

(** Loading reads the disk and leaves it as it is. *)
Lemma load_cache_disk s :
  disk (_load_cache s).2 = Some (default ∅ (disk s)).
Proof.
  unfold _load_cache. rewrite bind_eval. cbn.
  destruct (disk s) as [ch|] eqn:Hd; [|reflexivity].
  apply (preserves_for_each (λ s', disk s' = Some ch)); [|done].
  intros [ticker [|td]] _; cbn [fst snd]; [apply preserves_ret|].
  repeat (apply preserves_bind; [|intros _]);
    apply preserves_load_file; intros data;
    (apply preserves_update_list || apply preserves_update_line_items); done.
Qed.

Lemma ensure_ticker_dir_is_dir ticker s a s' :
  _ensure_ticker_dir ticker s = (Return a, s') → is_dir ticker (disk s').
Proof.
  unfold _ensure_ticker_dir, is_dir. rewrite bind_eval. cbn.
  destruct (default ∅ (disk s) !! ticker) as [[|td]|] eqn:Ht;
    rewrite ?bind_eval; unfold raise, modify, mret, M_ret; cbn;
    intros; simplify_eq; cbn.
  - eauto.
  - eexists. apply lookup_insert_eq.
Qed.

Lemma save_file_is_dir {A} ticker (name : file_name A) dump :
  preserves (λ s, is_dir ticker (disk s)) dump →
  preserves (λ s, is_dir ticker (disk s)) (_save_file ticker name dump).
Proof.
  intros Hdump. apply preserves_save_file; [done|].
  intros s s' ch td doc _ _ _. eexists. cbn. apply lookup_insert_eq.
Qed.

Lemma set_list_is_dir c ticker data s s' :
  set_list c ticker data s = (Return (), s') → is_dir ticker (disk s').
Proof.
  unfold set_list.
  intros (existing & s1 & _ & H)%bind_Return_inv.
  apply bind_Return_inv in H as (merged & s2 & _ & H).
  apply bind_Return_inv in H as (? & s3 & _ & H).
  apply bind_Return_inv in H as (td & s4 & Hmk & H).
  assert (td = ticker) as -> by (by eapply ensure_ticker_dir_returns).
  apply ensure_ticker_dir_is_dir in Hmk.
  pose proof (save_file_is_dir ticker (list_json c)
    (stored ← gets (λ s, cache_of c (self s) !! ticker);
     match stored with
     | Some p => deref p
     | None => raise (KeyError ticker)
     end)) as Hsave.
  eapply (λ Hd, Hsave Hd s4) in Hmk.
  - by rewrite H in Hmk.
  - apply preserves_bind; [apply preserves_gets|].
    intros [p|]; [apply preserves_deref|apply preserves_raise].
Qed.

Lemma set_line_items_is_dir ticker line_items end_date period data s s' :
  set_line_items ticker line_items end_date period data s = (Return (), s') →
  is_dir ticker (disk s').
Proof.
  unfold set_line_items.
  intros (known & s1 & _ & H)%bind_Return_inv.
  apply bind_Return_inv in H as (? & s2 & _ & H).
  apply bind_Return_inv in H as (? & s3 & _ & H).
  apply bind_Return_inv in H as (td & s4 & Hmk & H).
  assert (td = ticker) as -> by (by eapply ensure_ticker_dir_returns).
  apply ensure_ticker_dir_is_dir in Hmk.
  pose proof (save_file_is_dir ticker line_items_file
    (stored ← gets (λ s, _line_items_cache (self s) !! ticker);
     match stored with
     | Some m => dump_dict m
     | None => raise (KeyError ticker)
     end)) as Hsave.
  eapply (λ Hd, Hsave Hd s4) in Hmk.
  - by rewrite H in Hmk.
  - apply preserves_bind; [apply preserves_gets|].
    intros [m|]; [by apply preserves_dump_dict|apply preserves_raise].
Qed.

Lemma set_list_other_dirs c ticker data other s :
  other ≠ ticker →
  default ∅ (disk (set_list c ticker data s).2) !! other
  = default ∅ (disk s) !! other.
Proof.
  intros Hne.
  apply (preserves_set_list
    (λ s', default ∅ (disk s') !! other = default ∅ (disk s) !! other));
    try done.
  intros s1 s2 td Hs1 _. cbn. by rewrite lookup_insert_ne.
Qed.

Lemma set_line_items_other_dirs ticker line_items end_date period data other s :
  other ≠ ticker →
  default ∅
    (disk (set_line_items ticker line_items end_date period data s).2) !! other
  = default ∅ (disk s) !! other.
Proof.
  intros Hne.
  apply (preserves_set_line_items
    (λ s', default ∅ (disk s') !! other = default ∅ (disk s) !! other));
    try done.
  intros s1 s2 td Hs1 _. cbn. by rewrite lookup_insert_ne.
Qed.

(** C9, as the code has it.  Constructing the cache creates [./data] when it
    is missing and no ticker directory, whether it returns or raises; the
    [get_*] methods leave the whole state, the disk included, as it is; a
    [set_*] call on a ticker that is one path component leaves every other
    entry of [./data] as it is, and when it returns the ticker has its
    directory. *)
Theorem directories_made_by_construction_and_writes :
  (∀ d, disk (fresh_cache d) = Some (default ∅ d))
  ∧ (∀ c ticker s, (get_list c ticker s).2 = s)
  ∧ (∀ ticker line_items end_date period s,
       (get_line_items ticker line_items end_date period s).2 = s)
  ∧ (∀ c ticker data s other, path_component ticker → other ≠ ticker →
       default ∅ (disk (set_list c ticker data s).2) !! other
       = default ∅ (disk s) !! other)
  ∧ (∀ ticker line_items end_date period data s other,
       path_component ticker → other ≠ ticker →
       default ∅
         (disk (set_line_items ticker line_items end_date period data s).2)
         !! other
       = default ∅ (disk s) !! other)
  ∧ (∀ c ticker data s s', path_component ticker →
       set_list c ticker data s = (Return (), s') → is_dir ticker (disk s'))
  ∧ (∀ ticker line_items end_date period data s s', path_component ticker →
       set_line_items ticker line_items end_date period data s
       = (Return (), s') →
       is_dir ticker (disk s')).
Proof.
  split; [|split; [|split; [|split; [|split; [|split]]]]].
  - intros d. unfold fresh_cache, __init__. rewrite bind_eval. cbn.
    apply (load_cache_disk (MkState [] (MkCache ∅ ∅ ∅ ∅ ∅) d)).
  - done.
  - intros ticker line_items end_date period s.
    unfold get_line_items. rewrite bind_eval. cbn. by case_decide.
  - intros. by apply set_list_other_dirs.
  - intros. by apply set_line_items_other_dirs.
  - intros. by eapply set_list_is_dir.
  - intros. by eapply set_line_items_is_dir.
Qed.

Lemma AAPL_path_component : path_component "AAPL".
Proof. by repeat split. Qed.

Lemma directories_made_by_construction_and_writes_witness :
  default ∅ (disk (set_list Prices "AAPL" 1 sample_state).2) !! "MSFT"
  = default ∅ (disk sample_state) !! "MSFT"
  ∧ is_dir "AAPL" (disk (set_list Prices "AAPL" 1 sample_state).2).
Proof.
  destruct directories_made_by_construction_and_writes
    as (_ & _ & _ & Hother & _ & Hdir & _).
  split.
  - apply (Hother Prices "AAPL" 1 sample_state "MSFT");
      [apply AAPL_path_component|discriminate].
  - apply (Hdir Prices "AAPL" 1 sample_state);
      [apply AAPL_path_component|reflexivity].
Defined.

(** C9, as claimed, fails: on a disk without [./data], constructing the
    cache, with no write at all, creates the base directory. *)
Lemma construction_creates_base_directory :
  disk (process None) = None ∧ disk (fresh_cache None) = Some ∅.
Proof. split; reflexivity. Qed.

(** ** Tickers that were never written *)

Lemma update_list_absent c ticker c' ticker' data s :
  ¬ (c' = c ∧ ticker' = ticker) →
  cache_of c (self s) !! ticker = None →
  cache_of c (self (update_list c' ticker' data s).2) !! ticker = None.
Proof.
  intros Hne Hs.
  apply (preserves_update_list (λ s, cache_of c (self s) !! ticker = None));
    [done| |done].
  clear s Hs. intros s m Hs. cbn. destruct (decide (c' = c)) as [->|Hc].
  - rewrite cache_of_set_eq, lookup_insert_ne; [done|]. naive_solver.
  - by rewrite cache_of_set_ne.
Qed.

(** After construction a collection has an entry for a ticker only if the
    ticker's file for that collection was loaded. *)
Lemma fresh_cache_absent c ticker d :
  loadable (list_json c) ticker d = None →
  cache_of c (self (fresh_cache d)) !! ticker = None.
Proof.
  intros Hfile. unfold fresh_cache, __init__. rewrite bind_eval. cbn.
  change (set_self _ (process d)) with (process d).
  unfold _load_cache. rewrite bind_eval. cbn.
  destruct d as [ch|]; [|by destruct c].
  pose (I := λ s, disk s = Some ch ∧ cache_of c (self s) !! ticker = None).
  cut (I ((for_each (map_to_list ch) (λ entry,
        match entry.2 with
        | RegularFile => mret ()
        | Directory _ =>
            let ticker := entry.1 in
            _load_file ticker (list_json Prices) (update_list Prices ticker);;
            _load_file ticker (list_json FinancialMetrics)
              (update_list FinancialMetrics ticker);;
            _load_file ticker line_items_file (update_line_items ticker);;
            _load_file ticker (list_json InsiderTrades)
              (update_list InsiderTrades ticker);;
            _load_file ticker (list_json CompanyNews)
              (update_list CompanyNews ticker)
        end)) (process (Some ch))).2); [by intros [_ ?]|].
  apply preserves_for_each; [|split; [done|by destruct c]].
  intros [t [|td]] _; cbn [fst snd]; [apply preserves_ret|].
  assert (∀ c', preserves I
            (_load_file t (list_json c') (update_list c' t))) as Hlist.
  { intros c'. apply preserves_load_file_on. intros data s [Hd Hs] Hdata.
    split.
    - by apply (preserves_update_list (λ s, disk s = Some ch)).
    - apply update_list_absent; [|done]. intros [-> ->].
      rewrite Hd in Hdata. congruence. }
  repeat (apply preserves_bind; [|intros _]); try apply Hlist.
  apply preserves_load_file. intros data.
  apply preserves_update_line_items.
  - by intros s h [??].
  - intros s m [??]. split; [done|]. cbn. by rewrite cache_of_set_line_items.
Qed.

Lemma fresh_cache_line_items_absent ticker d :
  loadable line_items_file ticker d = None →
  _line_items_cache (self (fresh_cache d)) !! ticker = None.
Proof.
  intros Hfile. unfold fresh_cache, __init__. rewrite bind_eval. cbn.
  change (set_self _ (process d)) with (process d).
  unfold _load_cache. rewrite bind_eval. cbn.
  destruct d as [ch|]; [|done].
  pose (I := λ s,
    disk s = Some ch ∧ _line_items_cache (self s) !! ticker = None).
  cut (I ((for_each (map_to_list ch) (λ entry,
        match entry.2 with
        | RegularFile => mret ()
        | Directory _ =>
            let ticker := entry.1 in
            _load_file ticker (list_json Prices) (update_list Prices ticker);;
            _load_file ticker (list_json FinancialMetrics)
              (update_list FinancialMetrics ticker);;
            _load_file ticker line_items_file (update_line_items ticker);;
            _load_file ticker (list_json InsiderTrades)
              (update_list InsiderTrades ticker);;
            _load_file ticker (list_json CompanyNews)
              (update_list CompanyNews ticker)
        end)) (process (Some ch))).2); [by intros [_ ?]|].
  apply preserves_for_each; [|done].
  intros [t [|td]] _; cbn [fst snd]; [apply preserves_ret|].
  assert (∀ c', preserves I
            (_load_file t (list_json c') (update_list c' t))) as Hlist.
  { intros c'. apply preserves_load_file. intros data.
    apply preserves_update_list.
    - by intros s h [??].
    - intros s m [??]. split; [done|]. cbn.
      by rewrite line_items_set_cache_of. }
  repeat (apply preserves_bind; [|intros _]); try apply Hlist.
  apply preserves_load_file_on. intros data s [Hd Hs] Hdata.
  assert (t ≠ ticker) as Hne.
  { intros ->. rewrite Hd in Hdata. congruence. }
  apply preserves_update_line_items; [by intros ?? [??]| |done].
  intros s' m [??]. split; [done|]. cbn. by rewrite lookup_insert_ne.
Qed.

Lemma exec_absent c ticker k s :
  ¬ writes c ticker k →
  cache_of c (self s) !! ticker = None →
  cache_of c (self (exec k s)) !! ticker = None.
Proof.
  intros Hk Hs. pose (I := λ s, cache_of c (self s) !! ticker = None).
  destruct k as [c' t'|c' t' data|t' F D P|t' F D P data]; cbn in *.
  - done.
  - apply (preserves_bind I); [by apply preserves_new_list| |done].
    intros p. apply preserves_set_list; try done.
    intros s' m Hs'. unfold I. cbn.
    destruct (decide (c' = c)) as [->|Hc].
    + rewrite cache_of_set_eq, lookup_insert_ne; [done|]. naive_solver.
    + by rewrite cache_of_set_ne.
  - unfold get_line_items. rewrite bind_eval. cbn. by case_decide.
  - apply (preserves_bind I); [by apply preserves_new_list| |done].
    intros p. by apply preserves_set_line_items.
Qed.

Lemma set_line_items_absent ticker t' F D P p s :
  t' ≠ ticker →
  _line_items_cache (self s) !! ticker = None →
  _line_items_cache (self (set_line_items t' F D P p s).2) !! ticker = None.
Proof.
  intros Hne Hs.
  pose (I := λ s, _line_items_cache (self s) !! ticker = None).
  unfold set_line_items.
  apply (preserves_bind I); [apply preserves_gets| |done]. intros known.
  apply preserves_bind.
  { destruct known; [apply preserves_ret|apply preserves_modify].
    intros s' Hs'. unfold I. cbn. by rewrite lookup_insert_ne. }
  intros _. apply preserves_bind.
  { apply preserves_modify. intros s' Hs'. unfold I. cbn.
    by rewrite lookup_alter_ne. }
  intros _.
  eapply preserves_bind_returns;
    [|apply ensure_ticker_dir_returns|].
  { by apply preserves_ensure. }
  intros td ->. apply preserves_save; [done|].
  apply preserves_bind; [apply preserves_gets|].
  intros [m|]; [by apply preserves_dump_dict|apply preserves_raise].
Qed.

Lemma exec_line_items_absent ticker k s :
  ¬ writes_line_items ticker k →
  _line_items_cache (self s) !! ticker = None →
  _line_items_cache (self (exec k s)) !! ticker = None.
Proof.
  intros Hk Hs.
  pose (I := λ s, _line_items_cache (self s) !! ticker = None).
  destruct k as [c' t'|c' t' data|t' F D P|t' F D P data]; cbn in *.
  - done.
  - apply (preserves_bind I); [by apply preserves_new_list| |done].
    intros p. apply preserves_set_list; try done.
    intros s' m Hs'. unfold I. cbn. by rewrite line_items_set_cache_of.
  - unfold get_line_items. rewrite bind_eval. cbn. by case_decide.
  - rewrite bind_eval. cbn. by apply set_line_items_absent.
Qed.

Lemma run_invariant (I : state → Prop) (P : call → Prop) calls s :
  (∀ k s, P k → I s → I (exec k s)) →
  Forall P calls → I s → I (run calls s).
Proof.
  intros Hstep Hcalls. revert s.
  induction Hcalls as [|k calls Hk _ IH]; intros s Hs; [done|].
  cbn. apply IH. by apply Hstep.
Qed.

(** ** The two halves of a [set_*] call *)

(** Making the directory and saving the file, for a [dump] that only reads
    the heap and the [Cache] object. *)
Lemma ensure_and_save {A} ticker (name : file_name A) dump doc s :
  (∀ d, dump (set_disk d s) = (Return doc, set_disk d s)) →
  (ticker_dir ← _ensure_ticker_dir ticker; _save_file ticker_dir name dump) s
  = match default ∅ (disk s) !! ticker with
    | Some RegularFile => (Raise (FileExistsError ticker), s)
    | _ => (Return (), set_disk (written name ticker doc (disk s)) s)
    end.
Proof.
  intros Hdump. rewrite bind_eval. unfold _ensure_ticker_dir.
  rewrite bind_eval. cbn. unfold written, dir_of.
  destruct (default ∅ (disk s) !! ticker) as [[|td]|] eqn:Ht; cbn; [done| |].
  - unfold _save_file. rewrite bind_eval. cbn.
    destruct (disk s) as [ch|] eqn:Hd; cbn in Ht; [|done]. rewrite Ht.
    rewrite bind_eval. specialize (Hdump (Some ch)).
    replace (set_disk (Some ch) s) with s in Hdump
      by (destruct s; cbn in *; by subst).
    by rewrite Hdump.
  - rewrite bind_eval. cbn. unfold _save_file. rewrite bind_eval. cbn.
    rewrite lookup_insert_eq. rewrite bind_eval, Hdump. cbn.
    unfold modify, set_disk. cbn. by rewrite insert_insert_eq.
Qed.

Lemma set_list_Raise c ticker data s e s1 :
  _merge_data (cache_of c (self s) !! ticker) data (key_field c) s
  = (Raise e, s1) →
  set_list c ticker data s = (Raise e, s1).
Proof.
  intros H. unfold set_list. rewrite bind_eval. cbn.
  by rewrite bind_eval, H.
Qed.

Lemma set_list_Return c ticker data s m s1 l :
  _merge_data (cache_of c (self s) !! ticker) data (key_field c) s
  = (Return m, s1) →
  heap s1 !! m = Some l →
  let s2 := set_self
    (set_cache_of c (<[ticker := m]> (cache_of c (self s1))) (self s1)) s1 in
  set_list c ticker data s
  = match default ∅ (disk s1) !! ticker with
    | Some RegularFile => (Raise (FileExistsError ticker), s2)
    | _ => (Return (), set_disk (written (list_json c) ticker l (disk s1)) s2)
    end.
Proof.
  intros H Hm s2. unfold set_list. rewrite bind_eval. cbn.
  rewrite bind_eval, H. rewrite bind_eval. cbn. fold s2.
  rewrite (ensure_and_save ticker (list_json c) _ l s2); [done|].
  intros d. rewrite bind_eval. cbn.
  rewrite cache_of_set_eq, lookup_insert_eq. by apply deref_Some.
Qed.

(** [_merge_data] touches the heap only. *)
Lemma merge_data_frame existing new_data k s :
  self (_merge_data existing new_data k s).2 = self s
  ∧ disk (_merge_data existing new_data k s).2 = disk s.
Proof.
  by apply (preserves_merge_data
    (λ s1, self s1 = self s ∧ disk s1 = disk s)).
Qed.

(** C7. A ticker whose file for a collection was not on disk when the cache
    was constructed, and on which no [set_*] of that collection was called
    since, reads as [None] from the collection's [get_*]; and an empty list
    written to such a ticker reads back as a list, not as [None]. *)
Theorem never_written_reads_absent d calls ticker :
  (∀ c, loadable (list_json c) ticker d = None →
        Forall (λ k, ¬ writes c ticker k) calls →
        (get_list c ticker (run calls (fresh_cache d))).1 = Return None)
  ∧ (loadable line_items_file ticker d = None →
     Forall (λ k, ¬ writes_line_items ticker k) calls →
     ∀ line_items end_date period,
       (get_line_items ticker line_items end_date period
          (run calls (fresh_cache d))).1 = Return None)
  ∧ (∀ c, loadable (list_json c) ticker d = None →
          Forall (λ k, ¬ writes c ticker k) calls →
          ∃ p, (get_list c ticker
                  (run (calls ++ [SetList c ticker []]) (fresh_cache d))).1
               = Return (Some p)
               ∧ heap (run (calls ++ [SetList c ticker []]) (fresh_cache d))
                   !! p = Some []).
Proof.
  split; [|split].
  - intros c Hfile Hcalls. cbn. f_equal.
    apply (run_invariant (λ s, cache_of c (self s) !! ticker = None)
             (λ k, ¬ writes c ticker k)); [|done|by apply fresh_cache_absent].
    intros k s. apply exec_absent.
  - intros Hfile Hcalls F D P.
    assert (_line_items_cache (self (run calls (fresh_cache d))) !! ticker
            = None) as Hnone.
    { apply (run_invariant (λ s, _line_items_cache (self s) !! ticker = None)
               (λ k, ¬ writes_line_items ticker k));
        [|done|by apply fresh_cache_line_items_absent].
      intros k s. apply exec_line_items_absent. }
    unfold get_line_items. rewrite bind_eval. cbn. rewrite Hnone. cbn.
    by rewrite decide_True.
  - intros c Hfile Hcalls.
    assert (cache_of c (self (run calls (fresh_cache d))) !! ticker = None)
      as Hnone.
    { apply (run_invariant (λ s, cache_of c (self s) !! ticker = None)
               (λ k, ¬ writes c ticker k)); [|done|by apply fresh_cache_absent].
      intros k s. apply exec_absent. }
    unfold run. rewrite foldl_app. cbn [foldl]. fold (run calls (fresh_cache d)).
    set (s := run calls (fresh_cache d)) in *.
    exists (length (heap s)). unfold exec. rewrite bind_eval. cbn.
    set (s0 := set_heap (heap s ++ [[]]) s).
    assert (heap s0 !! length (heap s) = Some []) as Hp
      by apply heap_snoc_lookup.
    rewrite (set_list_Return c ticker _ s0 (length (heap s)) s0 []);
      [|by apply merge_data_cold; left|done].
    destruct (default ∅ (disk s0) !! ticker) as [[|td]|]; cbn;
      by rewrite cache_of_set_eq, lookup_insert_eq.
Qed.

Lemma never_written_reads_absent_witness :
  (get_list Prices "MSFT" (run sample_calls (fresh_cache None))).1
  = Return None
  ∧ (get_line_items "MSFT" ["revenue"] "2024-01-01" "ttm"
       (run sample_calls (fresh_cache None))).1 = Return None.
Proof.
  destruct (never_written_reads_absent None sample_calls "MSFT")
    as (Hlist & Hitems & _).
  split.
  - apply (Hlist Prices); [reflexivity|].
    repeat apply Forall_cons_2; try apply Forall_nil_2; cbn;
      first [tauto | intros [_ ?]; discriminate].
  - apply Hitems; [reflexivity|].
    repeat apply Forall_cons_2; try apply Forall_nil_2; cbn; tauto.
Defined.

(** ** Malformed records *)

Lemma read_write_list_json c x td :
  read (list_json c) (write (list_json c) x td) = Some x.
Proof. by destruct c. Qed.




(** ** Line items *)

(** Making the directory and saving a file change the disk only. *)
Lemma ensure_and_save_memory {A} ticker (name : file_name A) dump h C :
  preserves (λ s, heap s = h ∧ self s = C) dump →
  preserves (λ s, heap s = h ∧ self s = C)
    (ticker_dir ← _ensure_ticker_dir ticker; _save_file ticker_dir name dump).
Proof.
  intros Hdump.
  eapply preserves_bind_returns; [|apply ensure_ticker_dir_returns|].
  - by apply preserves_ensure_ticker_dir.
  - intros td ->. by apply preserves_save_file.
Qed.

(** What [set_line_items] leaves in memory, whether it returns or raises. *)
Lemma set_line_items_memory ticker line_items end_date period data s :
  let key := query_key line_items end_date period in
  let s' := (set_line_items ticker line_items end_date period data s).2 in
  heap s' = heap s
  ∧ _line_items_cache (self s')
    = <[ticker := <[key := data]>
                    (default ∅ (_line_items_cache (self s) !! ticker))]>
        (_line_items_cache (self s))
  ∧ ∀ c, cache_of c (self s') = cache_of c (self s).
Proof.
  intros key s'. subst s'. unfold set_line_items. fold key.
  rewrite bind_eval. cbn [gets].
  set (dump := stored ← gets (λ s, _line_items_cache (self s) !! ticker);
               match stored with
               | Some m => dump_dict m
               | None => raise (KeyError ticker)
               end).
  assert (∀ h C, preserves (λ s, heap s = h ∧ self s = C) dump) as Hdump.
  { intros h C. apply preserves_bind; [apply preserves_gets|].
    intros [m|]; [|apply preserves_raise].
    intros s0 ?. unfold dump_dict. by case_decide. }
  destruct (_line_items_cache (self s) !! ticker) as [m|] eqn:Hk.
  - rewrite bind_eval. cbn [mret M_ret]. rewrite bind_eval. cbn [modify].
    match goal with |- context [(_ ≫= _) ?s2] =>
      destruct (ensure_and_save_memory ticker line_items_file dump
                  (heap s2) (self s2) (Hdump _ _) s2) as [-> ->]; [done|]
    end.
    cbn. split; [done|]. split; [|by intros []].
    apply map_eq. intros t. destruct (decide (t = ticker)) as [->|].
    + by rewrite lookup_alter_eq, lookup_insert_eq, Hk.
    + by rewrite lookup_alter_ne, lookup_insert_ne.
  - rewrite bind_eval. cbn [modify]. rewrite bind_eval. cbn [modify].
    match goal with |- context [(_ ≫= _) ?s2] =>
      destruct (ensure_and_save_memory ticker line_items_file dump
                  (heap s2) (self s2) (Hdump _ _) s2) as [-> ->]; [done|]
    end.
    cbn. split; [done|]. split; [|by intros []].
    by rewrite alter_insert_eq.
Qed.

Lemma get_line_items_eval ticker line_items end_date period s :
  get_line_items ticker line_items end_date period s
  = (Return (line_items_of ticker s !! query_key line_items end_date period),
     s).
Proof.
  unfold get_line_items, line_items_of. rewrite bind_eval. cbn.
  case_decide as Hm; [|done]. by rewrite Hm, lookup_empty.
Qed.

(** C8. [set_line_items] replaces: after the call the entry under the
    composite key is the list it was given (the same object, with the
    records it had), whatever was there before; the entries under the other
    keys of the ticker, and the dictionaries of the other tickers, are as
    they were. *)
Theorem set_line_items_replaces ticker line_items end_date period data s :
  let key := query_key line_items end_date period in
  let s' := (set_line_items ticker line_items end_date period data s).2 in
  line_items_of ticker s' !! key = Some data
  ∧ heap s' = heap s
  ∧ (∀ key', key' ≠ key →
       line_items_of ticker s' !! key' = line_items_of ticker s !! key')
  ∧ (∀ ticker', ticker' ≠ ticker →
       line_items_of ticker' s' = line_items_of ticker' s)
  ∧ (get_line_items ticker line_items end_date period s').1
    = Return (Some data).
Proof.
  intros key s'.
  destruct (set_line_items_memory ticker line_items end_date period data s)
    as (Hheap & Hcache & _). fold key s' in Hheap, Hcache.
  assert (line_items_of ticker s'
          = <[key := data]> (line_items_of ticker s)) as Hm.
  { unfold line_items_of. by rewrite Hcache, lookup_insert_eq. }
  split; [by rewrite Hm, lookup_insert_eq|]. split; [done|].
  split; [by intros; rewrite Hm, lookup_insert_ne|].
  split.
  - intros ticker' ?. unfold line_items_of.
    by rewrite Hcache, lookup_insert_ne.
  - rewrite get_line_items_eval. cbn. fold key.
    by rewrite Hm, lookup_insert_eq.
Qed.

Lemma set_line_items_replaces_witness :
  let s' :=
    (set_line_items "AAPL" ["revenue"] "2024-01-01" "ttm" 1 sample_state).2 in
  line_items_of "AAPL" s' !! "2024-01-01_ttm_revenue" = Some 1
  ∧ line_items_of "AAPL" s' !! "2024-01-01_annual_revenue"
    = line_items_of "AAPL" sample_state !! "2024-01-01_annual_revenue"
  ∧ line_items_of "MSFT" s' = line_items_of "MSFT" sample_state.
Proof.
  intros s'.
  destruct (set_line_items_replaces "AAPL" ["revenue"] "2024-01-01" "ttm" 1
              sample_state) as (Hkey & _ & Hkeys & Htickers & _).
  split; [exact Hkey|]. split.
  - apply Hkeys. discriminate.
  - apply Htickers. discriminate.
Defined.

(** ** The composite key *)

Lemma sorted_Permutation (xs ys : list string) :
  xs ≡ₚ ys ↔ sorted xs = sorted ys.
Proof.
  unfold sorted. split.
  - intros Hp. apply (Sorted_unique String.le); try apply Sorted_merge_sort;
      try apply _.
    by rewrite !merge_sort_Permutation.
  - intros Heq. rewrite <- (merge_sort_Permutation String.le xs), Heq.
    apply merge_sort_Permutation.
Qed.

Lemma string_app_nil (s : string) : "" +:+ s = s.
Proof. done. Qed.

Lemma string_app_cons x (a s : string) : String x a +:+ s = String x (a +:+ s).
Proof. done. Qed.

Lemma occurs_app_sep c a b : occurs c (a +:+ String c b) = true.
Proof.
  induction a as [|x a IH].
  - rewrite string_app_nil. cbn. by rewrite decide_True.
  - rewrite string_app_cons. cbn. case_decide; [done|]. apply IH.
Qed.

(** Two strings cut at their first separator agree part by part. *)
Lemma split_at_sep c a1 a2 b1 b2 :
  occurs c a1 = false → occurs c a2 = false →
  a1 +:+ String c b1 = a2 +:+ String c b2 → a1 = a2 ∧ b1 = b2.
Proof.
  revert a2. induction a1 as [|x a1 IH]; intros [|y a2];
    rewrite ?string_app_nil, ?string_app_cons; cbn.
  - intros _ _ [= ->]. done.
  - intros _ Hy [= <- _]. by rewrite decide_True in Hy.
  - intros Hx _ [= -> _]. by rewrite decide_True in Hx.
  - intros Hx Hy [= -> Heq]. case_decide; [done|].
    destruct (IH a2 Hx Hy Heq) as [-> ->]. done.
Qed.

Lemma join_cons sep x y (xs : list string) :
  join sep (x :: y :: xs) = x +:+ sep +:+ join sep (y :: xs).
Proof. done. Qed.

Lemma join_comma_inj (xs ys : list string) :
  Forall field_name xs → Forall field_name ys →
  join "," xs = join "," ys → xs = ys.
Proof.
  intros Hxs. revert ys.
  induction Hxs as [|x xs [Hx Hxc] Hxs IH]; intros ys Hys Heq.
  - destruct Hys as [|y ys [Hy _] _]; [done|]. exfalso.
    destruct ys; cbn in Heq; [done|]. by destruct y.
  - destruct Hys as [|y ys [Hy Hyc] Hys].
    { exfalso. destruct xs; cbn in Heq; [done|]. by destruct x. }
    destruct xs as [|x' xs], ys as [|y' ys].
    + cbn in Heq. by subst.
    + exfalso. rewrite join_cons in Heq.
      change (join "," [x]) with x in Heq. subst x.
      change ("," +:+ ?b) with (String ","%char b) in Hxc.
      by rewrite occurs_app_sep in Hxc.
    + exfalso. rewrite join_cons in Heq.
      change (join "," [y]) with y in Heq. subst y.
      change ("," +:+ ?b) with (String ","%char b) in Hyc.
      by rewrite occurs_app_sep in Hyc.
    + rewrite !join_cons in Heq.
      change ("," +:+ ?b) with (String ","%char b) in Heq.
      destruct (split_at_sep _ _ _ _ _ Hxc Hyc Heq) as [-> Hrest].
      f_equal. by apply IH.
Qed.

Lemma query_key_sep line_items end_date period :
  query_key line_items end_date period
  = end_date +:+ String "_"%char
      (period +:+ String "_"%char (join "," (sorted line_items))).
Proof. done. Qed.

Lemma query_key_inj F1 F2 D1 D2 P1 P2 :
  unseparated D1 → unseparated P1 → unseparated D2 → unseparated P2 →
  Forall field_name F1 → Forall field_name F2 →
  query_key F1 D1 P1 = query_key F2 D2 P2 →
  D1 = D2 ∧ P1 = P2 ∧ F1 ≡ₚ F2.
Proof.
  intros HD1 HP1 HD2 HP2 HF1 HF2. rewrite !query_key_sep. intros Heq.
  apply split_at_sep in Heq as [-> Heq]; [|done..].
  apply split_at_sep in Heq as [-> Heq]; [|done..].
  split; [done|]. split; [done|]. apply sorted_Permutation.
  apply join_comma_inj; [| |done]; unfold sorted;
    by rewrite merge_sort_Permutation.
Qed.

Lemma revenue_keys_differ end_date period :
  query_key ["revenue"] end_date period
  ≠ query_key ["revenue"; "net_income"] end_date period.
Proof.
  unfold query_key. intros Heq.
  do 4 apply (inj (String.app _)) in Heq. by vm_compute in Heq.
Qed.

(** C6, as the code has it.  Field lists that are permutations of each
    other give, with the same end date and period, the same composite key.
    For end dates and periods without an underscore and field names that
    are non-empty and without a comma, equal keys are given by such inputs
    only.  And the scenario holds for every ticker, end date and period:
    after the two writes, each query reads the list written for it. *)
Theorem composite_key_discrimination :
  (∀ F1 F2 D P, F1 ≡ₚ F2 → query_key F1 D P = query_key F2 D P)
  ∧ (∀ F1 F2 D1 D2 P1 P2,
       unseparated D1 → unseparated P1 → unseparated D2 → unseparated P2 →
       Forall field_name F1 → Forall field_name F2 →
       query_key F1 D1 P1 = query_key F2 D2 P2 →
       D1 = D2 ∧ P1 = P2 ∧ F1 ≡ₚ F2)
  ∧ (∀ T D P R1 R2 s,
       let s' :=
         (set_line_items T ["revenue"; "net_income"] D P R2
            (set_line_items T ["revenue"] D P R1 s).2).2 in
       (get_line_items T ["revenue"] D P s').1 = Return (Some R1)
       ∧ (get_line_items T ["revenue"; "net_income"] D P s').1
         = Return (Some R2)).
Proof.
  split; [|split].
  - intros F1 F2 D P HF. unfold query_key.
    by rewrite (proj1 (sorted_Permutation F1 F2) HF).
  - apply query_key_inj.
  - intros T D P R1 R2 s s'.
    destruct (set_line_items_replaces T ["revenue"] D P R1 s)
      as (H1 & _). cbn zeta in H1.
    destruct (set_line_items_replaces T ["revenue"; "net_income"] D P R2
                (set_line_items T ["revenue"] D P R1 s).2)
      as (H2 & _ & Hkeys & _ & Hget). cbn zeta in H2, Hkeys, Hget.
    fold s' in H2, Hkeys, Hget. split; [|done].
    rewrite get_line_items_eval. cbn. rewrite Hkeys; [by rewrite H1|].
    apply revenue_keys_differ.
Qed.

Lemma composite_key_discrimination_witness :
  query_key ["revenue"; "net_income"] "2024-01-01" "ttm"
  = query_key ["net_income"; "revenue"] "2024-01-01" "ttm"
  ∧ ("2024-01-01" = "2024-01-01" ∧ "ttm" = "ttm"
     ∧ ["revenue"; "net_income"] ≡ₚ ["net_income"; "revenue"]).
Proof.
  destruct composite_key_discrimination as (Hperm & Hinj & _). split.
  - apply Hperm. apply Permutation_swap.
  - apply Hinj; try reflexivity;
      repeat constructor; discriminate.
Defined.

(** C6, as claimed, fails: queries that differ in the end date and the
    period, or in the set of fields, can have one composite key, so that one
    reads what the other wrote; and queries with the same set of fields can
    have two. *)
Lemma composite_key_collisions :
  query_key ["x"] "a_b" "c" = query_key ["x"] "a" "b_c"
  ∧ query_key ["a"; "b"] "2024-01-01" "ttm"
    = query_key ["a,b"] "2024-01-01" "ttm"
  ∧ (get_line_items "AAPL" ["a"; "b"] "2024-01-01" "ttm"
       (set_line_items "AAPL" ["a,b"] "2024-01-01" "ttm" 1 sample_state).2).1
    = Return (Some 1)
  ∧ query_key ["revenue"; "revenue"] "2024-01-01" "ttm"
    ≠ query_key ["revenue"] "2024-01-01" "ttm".
Proof.
  split; [reflexivity|]. split; [reflexivity|]. split; [reflexivity|].
  by vm_compute.
Qed.

(** ** Identity values of stored lists *)

Lemma idents_app k (xs ys : list record) :
  idents k (xs ++ ys) = idents k xs ++ idents k ys.
Proof. apply omap_app. Qed.

Lemma elem_of_idents k (items : list record) v :
  v ∈ idents k items ↔ ∃ item, item ∈ items ∧ ident k item = Some v.
Proof. apply list_elem_of_omap. Qed.

Lemma idents_filter_sublist k (P : record → Prop) `{∀ x, Decision (P x)}
    (items : list record) :
  idents k (filter P items) `sublist_of` idents k items.
Proof.
  induction items as [|item items IH]; [done|].
  rewrite filter_cons. unfold idents in *. case_decide; cbn.
  - destruct (ident k item); [by constructor|done].
  - destruct (ident k item); [by constructor|done].
Qed.

Lemma merged_well_keyed k (E I : list record) :
  well_keyed k E → well_keyed k I →
  well_keyed k (E ++ filter (admitted k (keys_of k E)) I).
Proof.
  intros [HE HEd] [HI HId]. split; [by apply merged_has_field|].
  rewrite idents_app. apply NoDup_app. split; [done|]. split.
  - intros v Hv (item & [Hadm _]%list_elem_of_filter & Hid)%elem_of_idents.
    unfold admitted in Hadm. rewrite Hid in Hadm. apply Hadm.
    unfold keys_of. by apply elem_of_list_to_set.
  - eapply sublist_NoDup; [done|apply idents_filter_sublist].
Qed.

Lemma distinct_ids_update c ticker m l s h' C' d' :
  distinct_ids s → heap s `prefix_of` h' →
  h' !! m = Some l → well_keyed (key_field c) l →
  C' = set_cache_of c (<[ticker := m]> (cache_of c (self s))) (self s) →
  distinct_ids (MkState h' C' d').
Proof.
  intros Hs Hpre Hm Hl -> c' t' p. cbn.
  destruct (decide (c' = c)) as [->|Hc].
  - rewrite cache_of_set_eq. destruct (decide (t' = ticker)) as [->|Ht].
    + rewrite lookup_insert_eq. intros [= <-]. eauto.
    + rewrite lookup_insert_ne by done. intros Hp.
      destruct (Hs c t' p Hp) as (l' & Hl' & ?). exists l'. split; [|done].
      by eapply prefix_lookup_Some.
  - rewrite cache_of_set_ne by done. intros Hp.
    destruct (Hs c' t' p Hp) as (l' & Hl' & ?). exists l'. split; [|done].
    by eapply prefix_lookup_Some.
Qed.

Lemma set_list_memory c ticker data s m s1 l :
  _merge_data (cache_of c (self s) !! ticker) data (key_field c) s
  = (Return m, s1) →
  heap s1 !! m = Some l →
  heap (set_list c ticker data s).2 = heap s1
  ∧ self (set_list c ticker data s).2
    = set_cache_of c (<[ticker := m]> (cache_of c (self s1))) (self s1).
Proof.
  intros H Hm. rewrite (set_list_Return c ticker data s m s1 l H Hm).
  by destruct (default ∅ (disk s1) !! ticker) as [[|td]|].
Qed.

(** A call with a well-keyed batch keeps every stored list well keyed. *)
Lemma exec_distinct_ids k s :
  good_batch k → distinct_ids s → distinct_ids (exec k s).
Proof.
  intros Hk Hs.
  destruct k as [c t|c t data|t F D P|t F D P data]; cbn in Hk.
  - done.
  - unfold exec. rewrite bind_eval. cbn [new_list fst snd].
    set (s0 := set_heap (heap s ++ [data]) s).
    set (p := length (heap s)).
    assert (heap s0 !! p = Some data) as Hp by apply heap_snoc_lookup.
    assert (heap s `prefix_of` heap s0) as Hpre by (by apply prefix_app_r).
    assert (∃ m s1 l,
      _merge_data (cache_of c (self s0) !! t) p (key_field c) s0
      = (Return m, s1)
      ∧ heap s1 !! m = Some l ∧ well_keyed (key_field c) l
      ∧ self s1 = self s ∧ heap s `prefix_of` heap s1)
      as (m & s1 & l & Hrun & Hm & Hl & Hself & Hpre1).
    { destruct (cache_of c (self s0) !! t) as [e|] eqn:He.
      - destruct (Hs c t e He) as (E & HE & HEk).
        assert (heap s0 !! e = Some E) as HE0
          by (cbn; by apply lookup_app_l_Some).
        destruct (decide (E = [])) as [->|Hne].
        + exists p, s0, data. split; [apply merge_data_cold; eauto|done].
        + eexists _, _, _. split.
          { eapply merge_data_warm; try done; [apply HEk|apply Hk]. }
          split; [apply heap_snoc_lookup|].
          split; [by apply merged_well_keyed|]. split; [done|].
          cbn. etrans; [exact Hpre|]. by apply prefix_app_r.
      - exists p, s0, data. split; [by apply merge_data_cold; left|done]. }
    destruct (set_list_memory c t p s0 m s1 l Hrun Hm) as [Hheap Hcache].
    destruct (set_list c t p s0).2 as [h' C' d'] eqn:Hfinal. cbn in *.
    eapply distinct_ids_update; try done.
    + by rewrite Hheap.
    + by rewrite Hheap.
    + by rewrite Hcache, Hself.
  - unfold exec. by rewrite get_line_items_eval.
  - unfold exec. rewrite bind_eval. cbn [new_list fst snd].
    destruct (set_line_items_memory t F D P (length (heap s))
                (set_heap (heap s ++ [data]) s)) as (Hheap & _ & Hcache).
    intros c t' p Hp. rewrite Hcache in Hp.
    destruct (Hs c t' p Hp) as (l & Hl & ?). exists l. split; [|done].
    rewrite Hheap. cbn. by apply lookup_app_l_Some.
Qed.

Lemma fresh_cache_None_distinct_ids : distinct_ids (fresh_cache None).
Proof. intros c t p Hp. by destruct c. Qed.

(** C1, as the code has it.  When every list the merged collections refer
    to is well keyed (each record carries the identity field, and no two
    have the same identity value), and every batch passed to [set_prices],
    [set_financial_metrics], [set_insider_trades] and [set_company_news] is
    well keyed too, then after any sequence of calls no stored list has two
    records with the same identity value. *)
Theorem identity_uniqueness calls s :
  distinct_ids s → Forall good_batch calls →
  ∀ c ticker l, stored c ticker (run calls s) = Some l →
    NoDup (idents (key_field c) l).
Proof.
  intros Hs Hcalls c ticker l Hl.
  assert (distinct_ids (run calls s)) as Hrun.
  { apply (run_invariant distinct_ids good_batch); [|done..].
    intros k s'. apply exec_distinct_ids. }
  unfold stored in Hl.
  destruct (cache_of c (self (run calls s)) !! ticker) as [p|] eqn:Hp;
    [|done].
  destruct (Hrun c ticker p Hp) as (l' & Hl' & _ & Hnd).
  cbn in Hl. by simplify_eq.
Qed.

Lemma identity_uniqueness_witness :
  stored Prices "AAPL" (run sample_calls (fresh_cache None))
  = Some [jan1; jan2]
  ∧ NoDup (idents "time" [jan1; jan2]).
Proof.
  split; [reflexivity|].
  apply (identity_uniqueness sample_calls (fresh_cache None)
           fresh_cache_None_distinct_ids) with (c := Prices) (ticker := "AAPL").
  - repeat apply Forall_cons_2; try apply Forall_nil_2; cbn; try done.
    all: split;
      [repeat apply Forall_cons_2; try apply Forall_nil_2; by eexists|].
    all: apply (bool_decide_unpack _); by vm_compute.
  - reflexivity.
Defined.

(** C1, as claimed, fails: on a cache that has nothing stored, one batch in
    which every record carries the identity field, and two of them the same
    value, is stored as it is. *)
Lemma first_batch_keeps_duplicates :
  Forall (has_field "time") [jan2; jan2']
  ∧ stored Prices "AAPL"
      (run [SetList Prices "AAPL" [jan2; jan2']] (fresh_cache None))
    = Some [jan2; jan2']
  ∧ ¬ NoDup (idents "time" [jan2; jan2']).
Proof.
  split; [repeat constructor; by eexists|]. split; [reflexivity|].
  intros Hnd. apply NoDup_cons in Hnd as [Hin _]. apply Hin.
  apply (bool_decide_unpack _). by vm_compute.
Qed.

(** * Further properties *)

(** ** More on the merge *)

Lemma merge_data_result existing n k s E I :
  contents s existing = Some E → heap s !! n = Some I →
  Forall (has_field k) E → Forall (has_field k) I →
  ∃ m s', _merge_data existing n k s = (Return m, s')
    ∧ heap s' !! m
      = Some (if decide (E = []) then I
              else E ++ filter (admitted k (keys_of k E)) I).
Proof.
  intros He Hn HE HI. case_decide as HEe.
  - subst E. exists n, s. split; [|done].
    apply merge_data_cold. destruct existing; eauto.
  - destruct existing as [e|]; [|by simplify_eq/=]. cbn in He.
    eexists _, _. split; [by eapply merge_data_warm|apply heap_snoc_lookup].
Qed.

Lemma keys_of_merged k (E I : list record) :
  keys_of k (E ++ filter (admitted k (keys_of k E)) I)
  = keys_of k E ∪ keys_of k I.
Proof.
  apply set_eq. intros v.
  rewrite elem_of_union, !elem_of_keys_of. split.
  - intros (item & [?|[_ ?]%list_elem_of_filter]%elem_of_app & Hid); eauto.
  - intros [(item & ? & ?)|(item & Hin & Hid)].
    + exists item. split; [|done]. apply elem_of_app. by left.
    + destruct (decide (v ∈ keys_of k E)) as [Hv|Hv].
      * apply elem_of_keys_of in Hv as (item' & ? & ?).
        exists item'. split; [|done]. apply elem_of_app. by left.
      * exists item. split; [|done]. apply elem_of_app. right.
        apply list_elem_of_filter. split; [|done].
        unfold admitted. by rewrite Hid.
Qed.

(** The identity values of the merged list are those of the stored list
    together with those of the batch: the merge loses no identity value
    and invents none. *)
Theorem merge_keys_union existing new_data k s E I :
  contents s existing = Some E → heap s !! new_data = Some I →
  Forall (has_field k) E → Forall (has_field k) I →
  ∃ m s' merged,
    _merge_data existing new_data k s = (Return m, s')
    ∧ heap s' !! m = Some merged
    ∧ keys_of k merged = keys_of k E ∪ keys_of k I.
Proof.
  intros He Hn HE HI.
  destruct (merge_data_result existing new_data k s E I)
    as (m & s' & Hrun & Hm); [done..|].
  eexists m, s', _. split; [done|]. split; [done|].
  case_decide as HEe; [|apply keys_of_merged].
  subst E. change (keys_of k []) with (∅ : gset value).
  by rewrite (left_id_L ∅ (∪)).
Qed.

Lemma merge_keys_union_witness :
  ∃ m s' merged,
    _merge_data (Some 0) 1 "time" sample_state = (Return m, s')
    ∧ heap s' !! m = Some merged
    ∧ keys_of "time" merged
      = keys_of "time" [jan1] ∪ keys_of "time" [jan1; jan2; jan2'].
Proof.
  apply (merge_keys_union (Some 0) 1 "time" sample_state
           [jan1] [jan1; jan2; jan2']).
  - reflexivity.
  - reflexivity.
  - repeat constructor; by eexists.
  - repeat constructor; by eexists.
Defined.

Lemma filter_none {A} (P : A → Prop) `{∀ x, Decision (P x)} (l : list A) :
  (∀ x, x ∈ l → ¬ P x) → filter P l = [].
Proof.
  induction l as [|x l IH]; intros Hl; [done|].
  rewrite filter_cons_False by (apply Hl; by left).
  apply IH. intros y ?. apply Hl. by right.
Qed.

(** For an identity value the stored list already has, the merged list
    has the records of the stored list and no other: an incoming record
    never replaces or joins a stored record with its identity value. *)
Theorem merge_existing_wins e new_data k s E I :
  heap s !! e = Some E → E ≠ [] → heap s !! new_data = Some I →
  Forall (has_field k) E → Forall (has_field k) I →
  ∃ m s' merged,
    _merge_data (Some e) new_data k s = (Return m, s')
    ∧ heap s' !! m = Some merged
    ∧ ∀ v, v ∈ keys_of k E →
        filter (λ item, ident k item = Some v) merged
        = filter (λ item, ident k item = Some v) E.
Proof.
  intros He Hne Hn HE HI. eexists _, _, _.
  split; [by eapply merge_data_warm|]. split; [apply heap_snoc_lookup|].
  intros v Hv. rewrite filter_app.
  rewrite (filter_none _ (filter _ I)); [by rewrite app_nil_r|].
  intros item [Hadm _]%list_elem_of_filter Hid.
  unfold admitted in Hadm. by rewrite Hid in Hadm.
Qed.

Lemma merge_existing_wins_witness :
  ∃ m s' merged,
    _merge_data (Some 2) 1 "time" sample_state = (Return m, s')
    ∧ heap s' !! m = Some merged
    ∧ filter (λ item, ident "time" item = Some (VStr "2024-01-02")) merged
      = [jan2].
Proof.
  destruct (merge_existing_wins 2 1 "time" sample_state
              [jan2] [jan1; jan2; jan2']) as (m & s' & merged & Hrun & Hm & Hv).
  - reflexivity.
  - discriminate.
  - reflexivity.
  - repeat constructor; by eexists.
  - repeat constructor; by eexists.
  - exists m, s', merged. split; [exact Hrun|]. split; [exact Hm|].
    rewrite Hv; [reflexivity|].
    apply elem_of_keys_of. exists jan2. split; [by left|reflexivity].
Defined.

(** ** List objects are never changed *)

Lemma merge_data_heap existing n k s :
  heap s `prefix_of` heap (_merge_data existing n k s).2.
Proof.
  unfold _merge_data. destruct existing as [e|]; [|done].
  rewrite bind_eval. unfold deref at 1.
  destruct (heap s !! e) as [[|r E]|] eqn:He; [done| |done].
  rewrite bind_eval. unfold lift at 1.
  destruct (key_set k (r :: E)) as [keys|err]; [|done].
  rewrite bind_eval. unfold list_copy. rewrite bind_eval, (deref_Some _ _ _ He).
  unfold new_list at 1. cbn [fst snd].
  set (s1 := set_heap (heap s ++ [r :: E]) s).
  assert (heap s `prefix_of` heap s1) as Hpre by (by apply prefix_app_r).
  rewrite bind_eval. unfold deref at 1.
  destruct (heap s1 !! n) as [I|]; [|done].
  rewrite bind_eval. unfold lift.
  destruct (not_in_keys k keys I) as [added|err]; [|done].
  rewrite bind_eval. unfold list_extend. rewrite bind_eval.
  rewrite (deref_Some (length (heap s)) (r :: E) s1)
    by apply heap_snoc_lookup.
  cbn. rewrite heap_snoc_insert. by apply prefix_app_r.
Qed.

Lemma preserves_objects_merge_data h existing n k :
  preserves (λ s, h `prefix_of` heap s) (_merge_data existing n k).
Proof. intros s Hs. etrans; [exact Hs|]. apply merge_data_heap. Qed.

Lemma preserves_objects_save {A} h ticker (name : file_name A) dump :
  preserves (λ s, h `prefix_of` heap s) dump →
  preserves (λ s, h `prefix_of` heap s)
    (ticker_dir ← _ensure_ticker_dir ticker; _save_file ticker_dir name dump).
Proof.
  intros Hdump.
  eapply preserves_bind_returns; [|apply ensure_ticker_dir_returns|].
  - by apply preserves_ensure_ticker_dir.
  - intros td ->. by apply preserves_save_file.
Qed.

Lemma set_list_heap c ticker data s :
  heap s `prefix_of` heap (set_list c ticker data s).2.
Proof.
  apply (preserves_bind (λ s', heap s `prefix_of` heap s'));
    [apply preserves_gets| |done].
  intros existing.
  apply preserves_bind; [apply preserves_objects_merge_data|]. intros merged.
  apply preserves_bind; [by apply preserves_modify|]. intros _.
  apply preserves_objects_save.
  apply preserves_bind; [apply preserves_gets|].
  intros [p|]; [apply preserves_deref|apply preserves_raise].
Qed.

Lemma exec_heap k s : heap s `prefix_of` heap (exec k s).
Proof.
  destruct k as [c t|c t data|t F D P|t F D P data]; unfold exec.
  - done.
  - rewrite bind_eval. cbn [new_list fst snd].
    etrans; [|apply set_list_heap]. by apply prefix_app_r.
  - by rewrite get_line_items_eval.
  - rewrite bind_eval. cbn [new_list fst snd].
    destruct (set_line_items_memory t F D P (length (heap s))
                (set_heap (heap s ++ [data]) s)) as (-> & _).
    by apply prefix_app_r.
Qed.

(** No call changes a list object that exists: a list a caller holds, for
    instance one a [get_*] returned or one it passed to a [set_*], has the
    same records after any further calls.  The merge extends a copy. *)
Theorem calls_keep_list_objects calls s p l :
  heap s !! p = Some l → heap (run calls s) !! p = Some l.
Proof.
  intros Hp. eapply prefix_lookup_Some; [exact Hp|].
  revert s Hp. induction calls as [|k calls IH]; intros s Hp; [done|].
  cbn. etrans; [apply (exec_heap k)|]. apply IH.
  eapply prefix_lookup_Some; [exact Hp|apply exec_heap].
Qed.

Lemma calls_keep_list_objects_witness :
  heap (run sample_calls sample_state) !! 0 = Some [jan1].
Proof.
  apply (calls_keep_list_objects sample_calls sample_state 0 [jan1]).
  reflexivity.
Defined.

(** With a non-empty stored list, a merge that returns hands back a list
    object that did not exist before, and leaves the stored list and the
    batch with the records they had. *)
Theorem merge_warm_returns_new_object e new_data k s E I m s' :
  heap s !! e = Some E → E ≠ [] → heap s !! new_data = Some I →
  _merge_data (Some e) new_data k s = (Return m, s') →
  m = length (heap s)
  ∧ heap s !! m = None
  ∧ heap s' !! e = Some E ∧ heap s' !! new_data = Some I
  ∧ heap s' !! m = Some (E ++ filter (admitted k (keys_of k E)) I).
Proof.
  intros He Hne Hn Hrun.
  destruct (decide (Forall (has_field k) (E ++ I))) as [Hok|Hbad].
  - apply Forall_app in Hok as [HE HI].
    rewrite (merge_data_warm e new_data k s E I) in Hrun by done.
    injection Hrun as <- <-. split; [done|].
    split; [by apply lookup_ge_None_2|]. cbn.
    split; [by apply lookup_app_l_Some|].
    split; [by apply lookup_app_l_Some|]. apply heap_snoc_lookup.
  - destruct (merge_data_raise e new_data k s E I)
      as (s1 & Hraise & _); [done..|by apply no_field_Exists|].
    congruence.
Qed.

Lemma merge_warm_returns_new_object_witness :
  heap (_merge_data (Some 0) 1 "time" sample_state).2 !! 0 = Some [jan1]
  ∧ heap (_merge_data (Some 0) 1 "time" sample_state).2 !! 5
    = Some [jan1; jan2; jan2'].
Proof.
  destruct (merge_warm_returns_new_object 0 1 "time" sample_state
              [jan1] [jan1; jan2; jan2'] 5
              (_merge_data (Some 0) 1 "time" sample_state).2)
    as (_ & _ & H0 & _ & H5).
  - reflexivity.
  - discriminate.
  - reflexivity.
  - reflexivity.
  - split; [exact H0|]. rewrite H5. reflexivity.
Defined.

(** ** The directory and the merging setters *)

(** [_ensure_ticker_dir] is idempotent, in its result and in the state it
    leaves, and it changes no file of any ticker. *)
Theorem ensure_ticker_dir_idempotent ticker s :
  _ensure_ticker_dir ticker (_ensure_ticker_dir ticker s).2
  = _ensure_ticker_dir ticker s
  ∧ (∀ c t,
        file_at (list_json c) t (disk (_ensure_ticker_dir ticker s).2)
        = file_at (list_json c) t (disk s))
  ∧ (∀ t,
        file_at line_items_file t (disk (_ensure_ticker_dir ticker s).2)
        = file_at line_items_file t (disk s)).
Proof.
  unfold _ensure_ticker_dir. rewrite !bind_eval. cbn [gets fst snd].
  destruct (default ∅ (disk s) !! ticker) as [[|td]|] eqn:Ht.
  - cbn. by rewrite Ht.
  - cbn. by rewrite Ht.
  - rewrite !bind_eval. cbn. rewrite lookup_insert_eq. split; [done|].
    split; [intros c t|intros t]; unfold file_at; cbn;
      (destruct (decide (t = ticker)) as [->|Hne];
        [rewrite lookup_insert_eq, Ht|by rewrite lookup_insert_ne]).
    + by destruct c.
    + done.
Qed.

Lemma set_list_stored c ticker data s m s1 l :
  _merge_data (cache_of c (self s) !! ticker) data (key_field c) s
  = (Return m, s1) →
  heap s1 !! m = Some l →
  stored c ticker (set_list c ticker data s).2 = Some l.
Proof.
  intros Hrun Hm.
  destruct (set_list_memory c ticker data s m s1 l Hrun Hm) as [Hh Hc].
  unfold stored. by rewrite Hh, Hc, cache_of_set_eq, lookup_insert_eq.
Qed.

(** After a merging [set_*] call, whether it returns or raises for the
    directory, the collection holds for the ticker: the batch, when nothing
    or an empty list was stored; otherwise what was stored followed by the
    records of the batch whose identity value was not stored. *)
Theorem set_list_stores_merge c ticker I s E :
  contents s (cache_of c (self s) !! ticker) = Some E →
  Forall (has_field (key_field c)) E → Forall (has_field (key_field c)) I →
  stored c ticker (exec (SetList c ticker I) s)
  = Some (if decide (E = []) then I
          else E ++ filter (admitted (key_field c) (keys_of (key_field c) E)) I).
Proof.
  intros He HE HI. unfold exec. rewrite bind_eval. cbn [new_list fst snd].
  set (s0 := set_heap (heap s ++ [I]) s).
  destruct (merge_data_result (cache_of c (self s0) !! ticker)
              (length (heap s)) (key_field c) s0 E I)
    as (m & s1 & Hrun & Hm); try done.
  - cbn. destruct (cache_of c (self s) !! ticker) as [e|]; [|done].
    cbn in *. by apply lookup_app_l_Some.
  - apply heap_snoc_lookup.
  - by eapply set_list_stored.
Qed.

Lemma set_list_stores_merge_witness :
  stored Prices "AAPL" (exec (SetList Prices "AAPL" [jan1; jan2]) sample_state)
  = Some [jan1; jan2].
Proof.
  rewrite (set_list_stores_merge Prices "AAPL" [jan1; jan2] sample_state
             [jan1]).
  - reflexivity.
  - reflexivity.
  - repeat constructor; by eexists.
  - repeat constructor; by eexists.
Defined.

(** When the path of the ticker's directory is a regular file, a merging
    [set_*] with a well-formed batch raises [FileExistsError] and leaves
    the disk as it was, after the entry in memory has been replaced by the
    merged list: memory and disk differ from then on. *)
Theorem set_list_blocked_by_file c ticker data s E I :
  default ∅ (disk s) !! ticker = Some RegularFile →
  contents s (cache_of c (self s) !! ticker) = Some E →
  heap s !! data = Some I →
  Forall (has_field (key_field c)) E → Forall (has_field (key_field c)) I →
  (set_list c ticker data s).1 = Raise (FileExistsError ticker)
  ∧ disk (set_list c ticker data s).2 = disk s
  ∧ stored c ticker (set_list c ticker data s).2
    = Some (if decide (E = []) then I
            else E ++ filter (admitted (key_field c)
                                (keys_of (key_field c) E)) I).
Proof.
  intros Hfile He Hdata HE HI.
  destruct (merge_data_result (cache_of c (self s) !! ticker) data
              (key_field c) s E I) as (m & s1 & Hrun & Hm); [done..|].
  split; [|split].
  - rewrite (set_list_Return c ticker data s m s1 _ Hrun Hm).
    destruct (merge_data_frame (cache_of c (self s) !! ticker) data
                (key_field c) s) as [_ Hd].
    rewrite Hrun in Hd. cbn in Hd. by rewrite Hd, Hfile.
  - rewrite (set_list_Return c ticker data s m s1 _ Hrun Hm).
    destruct (merge_data_frame (cache_of c (self s) !! ticker) data
                (key_field c) s) as [_ Hd].
    rewrite Hrun in Hd. cbn in Hd. by rewrite Hd, Hfile.
  - by eapply set_list_stored.
Qed.

Lemma set_list_blocked_by_file_witness :
  (set_list Prices "AAPL" 1 blocked_state).1
  = Raise (FileExistsError "AAPL")
  ∧ disk (set_list Prices "AAPL" 1 blocked_state).2 = disk blocked_state
  ∧ stored Prices "AAPL" (set_list Prices "AAPL" 1 blocked_state).2
    = Some [jan1; jan2; jan2'].
Proof.
  destruct (set_list_blocked_by_file Prices "AAPL" 1 blocked_state
              [jan1] [jan1; jan2; jan2']) as (Hraise & Hdisk & Hmem).
  - reflexivity.
  - reflexivity.
  - reflexivity.
  - repeat constructor; by eexists.
  - repeat constructor; by eexists.
  - split; [exact Hraise|]. split; [exact Hdisk|]. rewrite Hmem.
    reflexivity.
Defined.

(** ** What a setter leaves alone *)

Lemma preserves_save_file_dir {A} (I : state → Prop) ticker
    (name : file_name A) dump :
  preserves I dump →
  (∀ s s' ch td doc, I s → disk s = Some ch →
     ch !! ticker = Some (Directory td) → I s' →
     I (set_disk
          (Some (<[ticker := Directory (write name (Json doc) td)]> ch)) s')) →
  preserves I (_save_file ticker name dump).
Proof.
  intros Hdump Hwr s Hs. unfold _save_file. rewrite bind_eval. cbn.
  destruct (disk s) as [ch|] eqn:Hd; [|done].
  destruct (ch !! ticker) as [[|td]|] eqn:Ht; try done.
  rewrite bind_eval. specialize (Hdump s Hs).
  destruct (dump s) as [[doc|e] s'] eqn:Hdm; cbn in *; [|done].
  by eapply Hwr.
Qed.

(** A property of the disk that making a ticker's directory and writing
    one of its files keep. *)
Lemma preserves_disk_save {A} (I : option (gmap string node) → Prop) ticker
    (name : file_name A) dump :
  (∀ d, default ∅ d !! ticker = None → I d →
     I (Some (<[ticker := Directory empty_dir]> (default ∅ d)))) →
  (∀ ch td doc, ch !! ticker = Some (Directory td) → I (Some ch) →
     I (Some (<[ticker := Directory (write name (Json doc) td)]> ch))) →
  preserves (λ s, I (disk s)) dump →
  preserves (λ s, I (disk s))
    (ticker_dir ← _ensure_ticker_dir ticker; _save_file ticker_dir name dump).
Proof.
  intros Hmk Hwr Hdump.
  eapply preserves_bind_returns; [|apply ensure_ticker_dir_returns|].
  - apply preserves_ensure_ticker_dir. intros s Hs Ht. cbn. by apply Hmk.
  - intros td ->. apply preserves_save_file_dir; [done|].
    intros s s' ch td doc Hs Hd Ht _. cbn. apply Hwr; [done|].
    by rewrite <- Hd.
Qed.

Lemma preserves_disk_set_list (I : option (gmap string node) → Prop)
    c ticker data :
  (∀ d, default ∅ d !! ticker = None → I d →
     I (Some (<[ticker := Directory empty_dir]> (default ∅ d)))) →
  (∀ ch td doc, ch !! ticker = Some (Directory td) → I (Some ch) →
     I (Some (<[ticker := Directory (write (list_json c) (Json doc) td)]> ch))) →
  preserves (λ s, I (disk s)) (set_list c ticker data).
Proof.
  intros Hmk Hwr. unfold set_list.
  apply preserves_bind; [apply preserves_gets|]. intros existing.
  apply preserves_bind; [by apply preserves_merge_data|]. intros merged.
  apply preserves_bind; [by apply preserves_modify|]. intros _.
  apply preserves_disk_save; [done..|].
  apply preserves_bind; [apply preserves_gets|].
  intros [p|]; [apply preserves_deref|apply preserves_raise].
Qed.

Lemma preserves_disk_set_line_items (I : option (gmap string node) → Prop)
    ticker line_items end_date period data :
  (∀ d, default ∅ d !! ticker = None → I d →
     I (Some (<[ticker := Directory empty_dir]> (default ∅ d)))) →
  (∀ ch td doc, ch !! ticker = Some (Directory td) → I (Some ch) →
     I (Some (<[ticker := Directory (write line_items_file (Json doc) td)]> ch))) →
  preserves (λ s, I (disk s))
    (set_line_items ticker line_items end_date period data).
Proof.
  intros Hmk Hwr. unfold set_line_items.
  apply preserves_bind; [apply preserves_gets|]. intros known.
  apply preserves_bind.
  { destruct known; [apply preserves_ret|by apply preserves_modify]. }
  intros _. apply preserves_bind; [by apply preserves_modify|]. intros _.
  apply preserves_disk_save; [done..|].
  apply preserves_bind; [apply preserves_gets|].
  intros [m|]; [by apply preserves_dump_dict|apply preserves_raise].
Qed.

Lemma file_at_mkdir {A} (name : file_name A) ticker t d :
  read name empty_dir = None →
  default ∅ d !! ticker = None →
  file_at name t (Some (<[ticker := Directory empty_dir]> (default ∅ d)))
  = file_at name t d.
Proof.
  intros Hempty Ht. unfold file_at. cbn.
  destruct (decide (t = ticker)) as [->|Hne].
  - by rewrite lookup_insert_eq, Ht.
  - by rewrite lookup_insert_ne.
Qed.

Lemma file_at_write_other {A B} (name : file_name A) (name' : file_name B)
    ticker t ch td x :
  (t = ticker → read name' (write name x td) = read name' td) →
  ch !! ticker = Some (Directory td) →
  file_at name' t (Some (<[ticker := Directory (write name x td)]> ch))
  = file_at name' t (Some ch).
Proof.
  intros Hother Ht. unfold file_at. cbn.
  destruct (decide (t = ticker)) as [->|Hne].
  - rewrite lookup_insert_eq, Ht. auto.
  - by rewrite lookup_insert_ne.
Qed.

(** A merging [set_*] on a ticker that is one path component touches one
    file: the files of the other collections, and of the other tickers, and
    every line-items file, are as they were. *)
Theorem set_list_keeps_other_files c ticker data s :
  path_component ticker →
  (∀ c' t', c' ≠ c ∨ t' ≠ ticker →
     file_at (list_json c') t' (disk (set_list c ticker data s).2)
     = file_at (list_json c') t' (disk s))
  ∧ (∀ t', file_at line_items_file t' (disk (set_list c ticker data s).2)
           = file_at line_items_file t' (disk s)).
Proof.
  intros _. split.
  - intros c' t' Hne.
    apply (preserves_disk_set_list
      (λ d, file_at (list_json c') t' d = file_at (list_json c') t' (disk s)));
      [| |done].
    + intros d Ht <-. apply file_at_mkdir; [by destruct c'|done].
    + intros ch td doc Ht <-. apply file_at_write_other; [|done].
      intros ->. destruct Hne as [Hne|Hne]; [|done]. by destruct c, c'.
  - intros t'.
    apply (preserves_disk_set_list
      (λ d, file_at line_items_file t' d = file_at line_items_file t' (disk s)));
      [| |done].
    + intros d Ht <-. by apply file_at_mkdir.
    + intros ch td doc Ht <-. apply file_at_write_other; [|done].
      intros _. by destruct c.
Qed.

Lemma set_list_keeps_other_files_witness :
  file_at (list_json FinancialMetrics) "AAPL"
    (disk (set_list Prices "AAPL" 1 sample_state).2)
  = file_at (list_json FinancialMetrics) "AAPL" (disk sample_state).
Proof.
  destruct (set_list_keeps_other_files Prices "AAPL" 1 sample_state
              AAPL_path_component) as [Hlist _].
  apply Hlist. left. discriminate.
Defined.

(** [set_line_items] on a ticker that is one path component touches one
    file: the files of the merged collections of every ticker, and the
    line-items files of the other tickers, are as they were. *)
Theorem set_line_items_keeps_other_files ticker line_items end_date period
    data s :
  path_component ticker →
  let s' := (set_line_items ticker line_items end_date period data s).2 in
  (∀ c t', file_at (list_json c) t' (disk s')
           = file_at (list_json c) t' (disk s))
  ∧ (∀ t', t' ≠ ticker →
       file_at line_items_file t' (disk s')
       = file_at line_items_file t' (disk s)).
Proof.
  intros _ s'. subst s'. split.
  - intros c t'.
    apply (preserves_disk_set_line_items
      (λ d, file_at (list_json c) t' d = file_at (list_json c) t' (disk s)));
      [| |done].
    + intros d Ht <-. apply file_at_mkdir; [by destruct c|done].
    + intros ch td doc Ht <-. apply file_at_write_other; [|done].
      intros _. by destruct c.
  - intros t' Hne.
    apply (preserves_disk_set_line_items
      (λ d, file_at line_items_file t' d = file_at line_items_file t' (disk s)));
      [| |done].
    + intros d Ht <-. by apply file_at_mkdir.
    + intros ch td doc Ht <-. by apply file_at_write_other.
Qed.

Lemma set_line_items_keeps_other_files_witness :
  file_at line_items_file "MSFT"
    (disk (set_line_items "AAPL" ["revenue"] "2024-01-01" "ttm" 1
             sample_state).2)
  = file_at line_items_file "MSFT" (disk sample_state).
Proof.
  destruct (set_line_items_keeps_other_files "AAPL" ["revenue"] "2024-01-01"
              "ttm" 1 sample_state AAPL_path_component) as [_ Hitems].
  apply Hitems. discriminate.
Defined.

(** A merging [set_*] assigns one entry: the entries of the other
    collections and of the other tickers refer to the objects they
    referred to, and the line-items dictionaries are as they were. *)
Theorem set_list_keeps_other_entries c ticker data s :
  (∀ c' t', c' ≠ c ∨ t' ≠ ticker →
     cache_of c' (self (set_list c ticker data s).2) !! t'
     = cache_of c' (self s) !! t')
  ∧ _line_items_cache (self (set_list c ticker data s).2)
    = _line_items_cache (self s).
Proof.
  split.
  - intros c' t' Hne.
    apply (preserves_set_list
      (λ s', cache_of c' (self s') !! t' = cache_of c' (self s) !! t'));
      try done.
    intros s1 m <-. cbn. destruct (decide (c = c')) as [<-|Hc].
    + rewrite cache_of_set_eq, lookup_insert_ne; [done|].
      intros ->. by destruct Hne.
    + by rewrite cache_of_set_ne.
  - apply (preserves_set_list
      (λ s', _line_items_cache (self s') = _line_items_cache (self s)));
      try done.
    intros s1 m <-. cbn. apply line_items_set_cache_of.
Qed.

Lemma set_list_keeps_other_entries_witness :
  cache_of Prices (self (set_list Prices "MSFT" 1 sample_state).2) !! "AAPL"
  = cache_of Prices (self sample_state) !! "AAPL".
Proof.
  destruct (set_list_keeps_other_entries Prices "MSFT" 1 sample_state)
    as [Hlist _].
  apply Hlist. right. discriminate.
Defined.

Lemma load_cache_unfold :
  _load_cache
  = (d ← gets disk;
     match d with
     | None => modify (set_disk (Some ∅))
     | Some ch => for_each (map_to_list ch) load_ticker_dir
     end).
Proof. reflexivity. Qed.

(** ** Computations that return *)





(** ** What [json.load] builds *)

Lemma resolves_prefix h h' m doc :
  h `prefix_of` h' → resolves h m doc → resolves h' m doc.
Proof.
  intros Hpre Hm k. specialize (Hm k).
  destruct (m !! k), (doc !! k); try done. by eapply prefix_lookup_Some.
Qed.

Lemma load_pairs (kls : list (string * list record)) s :
  ∃ kps s',
    mapM (λ kl, p ← new_list kl.2; mret (kl.1, p)) kls s = (Return kps, s')
    ∧ self s' = self s ∧ disk s' = disk s ∧ heap s `prefix_of` heap s'
    ∧ Forall2 (λ (kp : string * loc) kl,
                 kp.1 = kl.1 ∧ heap s' !! kp.2 = Some kl.2) kps kls.
Proof.
  revert s. induction kls as [|kl kls IH]; intros s.
  - by exists [], s.
  - cbn [mapM]. rewrite !bind_eval. cbn [new_list fst snd mret M_ret].
    destruct (IH (set_heap (heap s ++ [kl.2]) s))
      as (kps & s' & Hrun & Hself & Hdisk & Hpre & Hall).
    rewrite bind_eval, Hrun. eexists _, s'. split; [done|].
    split; [done|]. split; [done|]. cbn in Hpre.
    split; [by etrans; [apply prefix_app_r|exact Hpre]|].
    constructor; [|done]. split; [done|]. cbn.
    eapply prefix_lookup_Some; [apply heap_snoc_lookup|exact Hpre].
Qed.

Lemma resolves_list_to_map h (kps : list (string * loc))
    (kls : list (string * list record)) :
  Forall2 (λ kp kl, kp.1 = kl.1 ∧ h !! kp.2 = Some kl.2) kps kls →
  resolves h (list_to_map kps) (list_to_map kls).
Proof.
  induction 1 as [|[k p] [k' l] kps kls [Hk Hp] _ IH]; intros j.
  - by rewrite !list_to_map_nil, !lookup_empty.
  - rewrite !list_to_map_cons. cbn [fst snd] in *. subst k'.
    destruct (decide (j = k)) as [->|Hne].
    + by rewrite !lookup_insert_eq.
    + rewrite !lookup_insert_ne by done. apply IH.
Qed.

Lemma load_dict_spec doc s :
  ∃ m s', load_dict doc s = (Return m, s')
    ∧ self s' = self s ∧ disk s' = disk s ∧ heap s `prefix_of` heap s'
    ∧ resolves (heap s') m doc.
Proof.
  destruct (load_pairs (map_to_list doc) s)
    as (kps & s' & Hrun & Hself & Hdisk & Hpre & Hall).
  exists (list_to_map kps), s'. unfold load_dict. rewrite bind_eval, Hrun.
  split; [done|]. split; [done|]. split; [done|]. split; [done|].
  apply resolves_list_to_map in Hall. by rewrite list_to_map_to_list in Hall.
Qed.


(** ** Computations that do not return *)




(** ** Loading the cache *)

Lemma loadable_Some {A} (name : file_name A) t ch doc :
  loadable name t (Some ch) = Some doc ↔
  ∃ td, ch !! t = Some (Directory td) ∧ read name td = Some (Json doc).
Proof.
  unfold loadable, file_at. cbn. split.
  - destruct (ch !! t) as [[|td]|]; try done.
    destruct (read name td) as [[|doc'|]|] eqn:Hr; try done.
    intros [= ->]. eauto.
  - intros (td & -> & ->). done.
Qed.

Lemma load_file_eval {A} (name : file_name A) t update_func s ch :
  disk s = Some ch →
  _load_file t name update_func s
  = match file_at name t (Some ch) with
    | Some (Json doc) => update_func doc s
    | Some Undecodable => (Raise (LoadError t), s)
    | _ => (Return (), s)
    end.
Proof.
  intros Hd. unfold _load_file, file_at. rewrite bind_eval. cbn.
  rewrite Hd. cbn. destruct (ch !! t) as [[|td]|]; try done.
  by destruct (read name td) as [[|doc|]|].
Qed.

Lemma update_list_eval c t data s :
  update_list c t data s
  = (Return (),
     MkState (heap s ++ [data])
       (set_cache_of c (<[t := length (heap s)]> (cache_of c (self s)))
          (self s))
       (disk s)).
Proof. reflexivity. Qed.

(** *** What the cache holds, it holds from the files *)

Lemma preserves_loaded_from_list ch c t :
  preserves (loaded_from ch) (_load_file t (list_json c) (update_list c t)).
Proof.
  intros s (Hd & Hlists & Hitems).
  rewrite (load_file_eval _ _ _ _ ch Hd).
  destruct (file_at (list_json c) t (Some ch)) as [[|data|]|] eqn:Hfile;
    try done.
  assert (loadable (list_json c) t (Some ch) = Some data) as Hload.
  { unfold loadable. by rewrite Hfile. }
  rewrite update_list_eval. split; [done|]. split.
  - intros c' t' p. cbn [heap self disk snd].
    destruct (decide (c' = c ∧ t' = t)) as [[-> ->]|Hne].
    + rewrite cache_of_set_eq, lookup_insert_eq. intros [= <-].
      exists data. split; [apply heap_snoc_lookup|done].
    + intros Hp.
      assert (cache_of c' (self s) !! t' = Some p) as Hp'.
      { destruct (decide (c = c')) as [<-|Hc].
        - rewrite cache_of_set_eq, lookup_insert_ne in Hp; [done|].
          intros <-. by apply Hne.
        - by rewrite cache_of_set_ne in Hp. }
      destruct (Hlists c' t' p Hp') as (l & Hl & ?). exists l.
      split; [by apply lookup_app_l_Some|done].
  - intros t' m. cbn [heap self disk snd].
    rewrite line_items_set_cache_of. intros Hm.
    destruct (Hitems t' m Hm) as (doc & ? & Hres). exists doc.
    split; [done|]. eapply resolves_prefix; [|exact Hres].
    by apply prefix_app_r.
Qed.

Lemma preserves_loaded_from_line_items ch t :
  preserves (loaded_from ch)
    (_load_file t line_items_file (update_line_items t)).
Proof.
  intros s (Hd & Hlists & Hitems).
  rewrite (load_file_eval _ _ _ _ ch Hd).
  destruct (file_at line_items_file t (Some ch)) as [[|data|]|] eqn:Hfile;
    try done.
  assert (loadable line_items_file t (Some ch) = Some data) as Hload.
  { unfold loadable. by rewrite Hfile. }
  destruct (load_dict_spec data s)
    as (m & s1 & Hrun & Hself & Hdisk & Hpre & Hres).
  unfold update_line_items. rewrite bind_eval, Hrun.
  unfold modify, set_self. split; [cbn; congruence|]. split.
  - intros c' t' p. cbn [heap self disk snd].
    rewrite cache_of_set_line_items, Hself. intros Hp.
    destruct (Hlists c' t' p Hp) as (l & Hl & ?). exists l.
    split; [by eapply prefix_lookup_Some|done].
  - intros t' m'.
    cbn [heap self disk snd _line_items_cache set_line_items_cache].
    destruct (decide (t' = t)) as [->|Hne].
    + rewrite lookup_insert_eq. intros [= <-]. eauto.
    + rewrite lookup_insert_ne, Hself by done. intros Hm.
      destruct (Hitems t' m' Hm) as (doc & ? & Hres'). exists doc.
      split; [done|]. by eapply resolves_prefix.
Qed.

Lemma preserves_loaded_from_ticker_dir ch entry :
  preserves (loaded_from ch) (load_ticker_dir entry).
Proof.
  destruct entry as [t [|td]]; [apply preserves_ret|].
  unfold load_ticker_dir. cbn [fst snd].
  repeat (apply preserves_bind; [|intros _]);
    first [apply preserves_loaded_from_list
          |apply preserves_loaded_from_line_items].
Qed.

Lemma init_loaded_from ch h C :
  loaded_from ch (__init__ (MkState h C (Some ch))).2.
Proof.
  unfold __init__. rewrite bind_eval. cbn [modify].
  rewrite load_cache_unfold, bind_eval. cbn [gets disk set_self].
  apply preserves_for_each.
  - intros entry _. apply preserves_loaded_from_ticker_dir.
  - split; [done|]. split.
    + intros c t p Hp. by destruct c.
    + intros t m Hm. done.
Qed.

Lemma loadable_default {A} (name : file_name A) t d :
  loadable name t (Some (default ∅ d)) = loadable name t d.
Proof. by destruct d. Qed.

(** What the constructed cache holds, it holds from the files; also when
    the construction was cut short by a file that does not decode. *)
Lemma fresh_cache_from d :
  lists_from d (fresh_cache d) ∧ line_items_from d (fresh_cache d).
Proof.
  destruct d as [ch|].
  - by destruct (init_loaded_from ch [] (MkCache ∅ ∅ ∅ ∅ ∅)) as (_ & ? & ?).
  - split.
    + intros c t p Hp. by destruct c.
    + intros t m Hm. done.
Qed.

(** *** Every file that loads is loaded *)







(** *** A file that does not decode *)












(** ** Identity values across restarts *)

Lemma file_at_written_other {A B} (name : file_name A) (name' : file_name B)
    t t' doc d :
  (t' = t → read name' empty_dir = None
            ∧ ∀ x td, read name' (write name x td) = read name' td) →
  file_at name' t' (written name t doc d) = file_at name' t' d.
Proof.
  intros Hother. unfold file_at, written, dir_of. cbn.
  destruct (decide (t' = t)) as [->|Hne]; [|by rewrite lookup_insert_ne].
  destruct Hother as [Hempty Hother]; [done|].
  rewrite lookup_insert_eq, Hother.
  by destruct (default ∅ d !! t) as [[|td]|].
Qed.

Lemma loadable_written_list c c' t t' doc d :
  c' ≠ c ∨ t' ≠ t →
  loadable (list_json c') t' (written (list_json c) t doc d)
  = loadable (list_json c') t' d.
Proof.
  intros Hne. unfold loadable. rewrite file_at_written_other; [done|].
  intros ->. destruct Hne as [Hne|]; [|done]. by destruct c, c'.
Qed.

Lemma loadable_written {A} (name : file_name A) t doc d :
  (∀ x td, read name (write name x td) = Some x) →
  loadable name t (written name t doc d) = Some doc.
Proof.
  intros Hrw. unfold loadable, file_at, written. cbn.
  by rewrite lookup_insert_eq, Hrw.
Qed.

Lemma merge_data_returns_object existing n k s m s1 :
  _merge_data existing n k s = (Return m, s1) →
  is_Some (heap s !! n) → is_Some (heap s1 !! m).
Proof.
  unfold _merge_data. destruct existing as [e|]; [|by intros [= <- <-]].
  rewrite bind_eval. unfold deref at 1.
  destruct (heap s !! e) as [[|r E]|] eqn:He; [by intros [= <- <-]| |done].
  rewrite bind_eval. unfold lift at 1.
  destruct (key_set k (r :: E)) as [keys|err]; [|done].
  rewrite bind_eval. unfold list_copy. rewrite bind_eval, (deref_Some _ _ _ He).
  unfold new_list at 1. cbn [fst snd].
  set (s0 := set_heap (heap s ++ [r :: E]) s).
  rewrite bind_eval. unfold deref at 1.
  destruct (heap s0 !! n) as [I|]; [|done].
  rewrite bind_eval. unfold lift.
  destruct (not_in_keys k keys I) as [added|err]; [|done].
  rewrite bind_eval. unfold list_extend. rewrite bind_eval.
  rewrite (deref_Some (length (heap s)) (r :: E) s0)
    by apply heap_snoc_lookup.
  cbn. rewrite heap_snoc_insert. intros [= <- <-] _. cbn.
  rewrite heap_snoc_lookup. eauto.
Qed.

Lemma other_file (c c' : collection) (t t' : string) :
  ¬ (c' = c ∧ t' = t) → c' ≠ c ∨ t' ≠ t.
Proof. intros Hne. destruct (decide (c' = c)) as [->|]; [right|left]; auto. Qed.

(** What a merging [set_*] leaves on the disk: what was there, or the
    stored list in the ticker's file. *)
Lemma set_list_disk c t data s :
  is_Some (heap s !! data) →
  disk (set_list c t data s).2 = disk s
  ∨ ∃ l, stored c t (set_list c t data s).2 = Some l
         ∧ disk (set_list c t data s).2
           = written (list_json c) t l (disk s).
Proof.
  intros Hdata.
  pose proof (merge_data_frame (cache_of c (self s) !! t) data
                (key_field c) s) as [_ Hdisk].
  destruct (_merge_data (cache_of c (self s) !! t) data (key_field c) s)
    as [[m|e] s1] eqn:Hrun; cbn [snd] in Hdisk.
  - destruct (merge_data_returns_object _ _ _ _ _ _ Hrun Hdata) as [l Hm].
    pose proof (set_list_stored c t data s m s1 l Hrun Hm) as Hstored.
    rewrite (set_list_Return c t data s m s1 l Hrun Hm) in Hstored |- *.
    rewrite Hdisk in Hstored |- *.
    destruct (default ∅ (disk s) !! t) as [[|td]|]; cbn [snd];
      [by left|right; by exists l..].
  - rewrite (set_list_Raise c t data s e s1 Hrun). by left.
Qed.

Lemma fresh_cache_distinct_ids d :
  well_keyed_disk d → distinct_ids (fresh_cache d).
Proof.
  intros Hd c t p Hp. destruct (fresh_cache_from d) as [Hlists _].
  destruct (Hlists c t p Hp) as (l & Hl & Hload). exists l.
  split; [done|]. by apply (Hd c t).
Qed.

Lemma fresh_cache_disk d : disk (fresh_cache d) = Some (default ∅ d).
Proof.
  unfold fresh_cache, __init__. rewrite bind_eval. cbn.
  apply (load_cache_disk (MkState [] (MkCache ∅ ∅ ∅ ∅ ∅) d)).
Qed.

Lemma exec_well_keyed_disk k s :
  distinct_ids (exec k s) → well_keyed_disk (disk s) →
  well_keyed_disk (disk (exec k s)).
Proof.
  intros Hids Hd.
  destruct k as [c t|c t data|t F D P|t F D P data]; unfold exec in *.
  - done.
  - rewrite bind_eval in Hids |- *. cbn [new_list fst snd] in Hids |- *.
    set (s0 := set_heap (heap s ++ [data]) s) in *.
    destruct (set_list_disk c t (length (heap s)) s0) as [->|(l & Hl & ->)];
      [cbn; rewrite heap_snoc_lookup; eauto|done|].
    intros c' t' l'. destruct (decide (c' = c ∧ t' = t)) as [[-> ->]|Hne].
    + rewrite loadable_written by (intros; apply read_write_list_json).
      intros [= <-]. unfold stored in Hl.
      destruct (cache_of c (self (set_list c t (length (heap s)) s0).2) !! t)
        as [p|] eqn:Hp; [|done].
      destruct (Hids c t p Hp) as (l' & Hl' & Hk). cbn in Hl.
      by simplify_eq.
    + rewrite loadable_written_list by (by apply other_file). apply Hd.
  - by rewrite get_line_items_eval.
  - rewrite bind_eval. cbn [new_list fst snd].
    intros c t' l.
    assert (file_at (list_json c) t'
              (disk (set_line_items t F D P (length (heap s))
                       (set_heap (heap s ++ [data]) s)).2)
            = file_at (list_json c) t' (disk s)) as Hfile.
    { apply (preserves_disk_set_line_items
        (λ d, file_at (list_json c) t' d
              = file_at (list_json c) t' (disk s))); [| |done].
      - intros d Ht <-. apply file_at_mkdir; [by destruct c|done].
      - intros ch td doc Ht <-. apply file_at_write_other; [|done].
        intros _. by destruct c. }
    unfold loadable. rewrite Hfile. apply Hd.
Qed.

(** When every list file on disk is well keyed, every batch is well keyed
    and no call writes to a ticker whose path is a regular file, every list
    file is well keyed after the calls as well. *)
Theorem well_keyed_disk_stays_well_keyed d calls :
  well_keyed_disk d → Forall good_batch calls →
  Forall (unobstructed d) calls →
  well_keyed_disk (disk (run calls (fresh_cache d))).
Proof.
  intros Hd Hgood _.
  assert (well_keyed_disk (disk (fresh_cache d))) as Hd0.
  { rewrite fresh_cache_disk. intros c t l.
    rewrite loadable_default. apply Hd. }
  pose proof (fresh_cache_distinct_ids d Hd) as Hids.
  revert Hd0 Hids. generalize (fresh_cache d). clear Hd.
  induction Hgood as [|k calls Hk _ IH]; intros s Hd Hids; [done|].
  cbn. pose proof (exec_distinct_ids k s Hk Hids) as Hids'.
  apply IH; [|done]. by apply exec_well_keyed_disk.
Qed.

Lemma sample_disk_well_keyed : well_keyed_disk sample_disk.
Proof.
  intros c t l (td & Htd & Hl)%loadable_Some.
  apply lookup_singleton_Some in Htd as [<- [= <-]].
  destruct c; cbn in Hl; simplify_eq.
  split; [repeat constructor; by eexists|].
  apply (bool_decide_unpack _). by vm_compute.
Qed.

Lemma sample_calls_good : Forall good_batch sample_calls.
Proof.
  repeat apply Forall_cons_2; try apply Forall_nil_2; cbn; try done.
  all: split;
    [repeat apply Forall_cons_2; try apply Forall_nil_2; by eexists|].
  all: apply (bool_decide_unpack _); by vm_compute.
Qed.

Lemma well_keyed_disk_stays_well_keyed_witness :
  well_keyed_disk (disk (run sample_calls (fresh_cache sample_disk))).
Proof.
  apply (well_keyed_disk_stays_well_keyed sample_disk sample_calls).
  - apply sample_disk_well_keyed.
  - apply sample_calls_good.
  - repeat apply Forall_cons_2; try apply Forall_nil_2; cbn; try done.
    all: intros Heq; by vm_compute in Heq.
Defined.

(** ** Reading line items *)

(** The early return of [get_line_items] is redundant: the method returns
    what looking the composite key up in the ticker's dictionary, or in an
    empty one when the ticker has none, gives, and it leaves the state as
    it is.  A ticker whose dictionary is empty, as after loading an empty
    line-items file, reads like a ticker that has none. *)
Theorem get_line_items_is_lookup ticker line_items end_date period s :
  get_line_items ticker line_items end_date period s
  = (Return (line_items_of ticker s !! query_key line_items end_date period),
     s)
  ∧ (_line_items_cache (self s) !! ticker = Some ∅ →
     (get_line_items ticker line_items end_date period s).1 = Return None).
Proof.
  split; [apply get_line_items_eval|]. intros Hempty.
  rewrite get_line_items_eval. unfold line_items_of. rewrite Hempty. cbn.
  by rewrite lookup_empty.
Qed.

Lemma get_line_items_is_lookup_witness :
  (get_line_items "AAPL" ["revenue"] "2024-01-01" "ttm"
     (fresh_cache
        (Some {[ "AAPL" :=
           Directory (TickerDir None None (Some (Json ∅)) None None) ]}))).1
  = Return None.
Proof.
  apply get_line_items_is_lookup. reflexivity.
Defined.
